(** * MeanVecFieldCartesian: ensemble statistics over masked velocity fields

    A shallow embedding of [py/managers/MeanVecFieldCartesian.py].

    Numbers.  The program works on IEEE doubles; the embedding works on the
    exact rationals [Qc] (canonical fractions, Leibniz equality), so the
    statements about values below are about the exact arithmetic the
    floating-point code approximates.  The only irrational operation of the
    program, [** 0.5], is kept abstract (a section variable [sqrt]).  Where
    doubles behave differently from rationals, in the order of a sum and in
    results that are not finite, module [F64] gives the operation on
    binary64 numbers.

    Masked arrays.  A cell of a numpy masked array is a value together with
    a mask bit; the value under a set mask bit is never observed by the
    program, so a cell is an [option Qc] with [None] for "masked". *)

From Stdlib Require Import QArith Qcanon Qcabs.
From Stdlib Require PrimFloat.
From stdpp Require Import base numbers list strings gmap.

Local Open Scope Qc_scope.

(** ** Masked cells and their arithmetic *)

Module Ma.

Definition cell : Type := option Qc.

(** Binary ufuncs on masked operands: the result is masked where either
    operand is. *)
Definition lift2 (f : Qc → Qc → Qc) (a b : cell) : cell :=
  match a, b with
  | Some x, Some y => Some (f x y)
  | _, _ => None
  end.

Definition add : cell → cell → cell := lift2 Qcplus.
Definition sub : cell → cell → cell := lift2 Qcminus.
Definition mul : cell → cell → cell := lift2 Qcmult.

(** [abs(a)], [a ** 2], [a / 2]: unary, mask kept. *)
Definition abs (a : cell) : cell := Qcabs <$> a.
Definition sq (a : cell) : cell := (λ x, x * x) <$> a.
Definition half (a : cell) : cell := (λ x, x / 2) <$> a.

(** [np.ma.masked_array(a, mask=m)] with the default [keep_mask=True]:
    the new mask is or-ed with the one the data already carries. *)
Definition masked_array (a : cell) (m : bool) : cell :=
  if m then None else a.

(** *** Reductions along one axis (a list of cells) *)

(** The unmasked entries, in order. *)
Definition valid (l : list cell) : list Qc := omap id l.

(** [a.count(axis)]: number of unmasked entries. *)
Definition count (l : list cell) : nat := length (valid l).

(** [a.sum(axis)] over the unmasked entries ([filled(0).sum]). *)
Definition total (l : list Qc) : Qc := foldr Qcplus 0 l.

Definition of_nat (n : nat) : Qc := Qc_of_Z (Z.of_nat n).

(** [np.ma.mean(a, axis)] is [a.sum(axis) * 1. / a.count(axis)]; the
    division is a domained one, so a series without any unmasked entry
    gives a masked mean. *)
Definition mean (l : list cell) : cell :=
  if decide (count l = 0%nat) then None
  else Some (total (valid l) / of_nat (count l)).

End Ma.

(** ** Two- and three-dimensional arrays *)

(** Row-major nested lists: [a !! r] is a row, a 3-d array has the sample
    axis innermost, as [dims + (depth,)] in the source. *)
Abbreviation array2 A := (list (list A)).
Abbreviation array3 A := (list (list (list A))).

Abbreviation marray2 := (list (list Ma.cell)).
Abbreviation marray3 := (list (list (list Ma.cell))).

Section arrays.
Context {A B C : Type}.

(** Elementwise application of a unary and of a binary operation. *)
Definition ew1 (f : A → B) (a : array2 A) : array2 B := map (map f) a.
Definition ew2 (f : A → B → C) (a : array2 A) (b : array2 B) : array2 C :=
  zip_with (zip_with f) a b.

(** The array whose cell [(r, c)] is [f r c]. *)
Definition tab (R Cn : nat) (f : nat → nat → A) : array2 A :=
  map (λ r, map (f r) (seq 0 Cn)) (seq 0 R).

(** Shape test: [R] rows of [Cn] cells. *)
Definition shape2 (R Cn : nat) (a : array2 A) : Prop :=
  length a = R ∧ Forall (λ row, length row = Cn) a.

Definition shape2b (R Cn : nat) (a : array2 A) : bool :=
  bool_decide (length a = R) && forallb (λ row, bool_decide (length row = Cn)) a.
End arrays.

(** Cell [(r, c)] of an array; the default is only met out of range. *)
Definition at2 {A} `{Inhabited A} (a : array2 A) (r c : nat) : A :=
  (a !!! r) !!! c.

(** [np.ma.zeros(dims + (depth,))]. *)
Definition ma_zeros3 (R Cn depth : nat) : marray3 :=
  replicate R (replicate Cn (replicate depth (Some 0))).

(** [a[:, :, i] = m]: layer [i] of the sample axis is overwritten,
    data and mask.  The assignment is modelled for an [m] of the shape of
    the first two axes of [a], which is what the loader's contract gives;
    numpy would broadcast or raise on another shape, [zip_with] truncates. *)
Definition set_layer (a : marray3) (i : nat) (m : marray2) : marray3 :=
  ew2 (λ series x, <[i := x]> series) a m.

(** [a[:, :, i]]. *)
Definition get_layer (a : marray3) (i : nat) : marray2 :=
  ew1 (λ series : list Ma.cell, series !!! i) a.

(** [enumerate(l)]. *)
Definition enumerate {A} (l : list A) : list (nat * A) :=
  zip (seq 0 (length l)) l.

(** Whole-array versions of the cell operations. *)
Definition count_axis2 (a : marray3) : array2 nat := ew1 Ma.count a.
Definition mean_axis2 (a : marray3) : marray2 := ew1 Ma.mean a.
Definition masked_array2 (a : marray2) (m : array2 bool) : marray2 :=
  ew2 Ma.masked_array a m.
Definition mul3 (a b : marray3) : marray3 := ew2 (zip_with Ma.mul) a b.
Definition abs3 (a : marray3) : marray3 := ew1 (map Ma.abs) a.

(** ** Values, samples and the aggregator instance *)

(** What an attribute or a table entry can hold. *)
Inductive value : Type :=
  | VNone                      (* Python's [None] *)
  | VArr (a : marray2)         (* a two-dimensional (masked) array *)
  | VAxis (l : list Qc).       (* a one-dimensional coordinate sequence *)

Global Instance value_inhabited : Inhabited value := populate VNone.
Global Instance value_eq_dec : EqDecision value.
Proof. solve_decision. Defined.

(** Modelled from the spec: the loader class [VecFieldCartesian]
    ([py/managers/VecFieldCartesian.py]) is not part of the sources.  A
    loaded sample exposes its coordinate axes, its grid dimensions, a
    coordinate-mesh table and a velocity table with the three keys
    ['U'], ['V'], ['W'], each a masked matrix. *)
Record cvm : Type := Cvm {
  cU : marray2;
  cV : marray2;
  cW : marray2 }.

Record VecField : Type := {
  vf_x_set : value;
  vf_y_set : value;
  vf_dims : nat * nat;
  vf_meshgrid : gmap string value;
  vf_vel_matrix : cvm }.

(** A sample honours the loader's contract when its three matrices have
    the shape its [dims] announce. *)
Definition cvm_shape (R Cn : nat) (m : cvm) : Prop :=
  shape2 R Cn (cU m) ∧ shape2 R Cn (cV m) ∧ shape2 R Cn (cW m).

Definition cvm_shapeb (R Cn : nat) (m : cvm) : bool :=
  shape2b R Cn (cU m) && shape2b R Cn (cV m) && shape2b R Cn (cW m).

(** Caller-owned Python lists live in a store, so that two names for one
    list see each other's mutations. *)
Definition loc : Type := nat.

Record instance : Type := {
  name_tag : option string;
  v3d_paths : option loc;
  min_points : Z;
  velocity_fs : option Qc;
  constituent_vel_matrix_list : list cvm;
  x_set : value;
  y_set : value;
  dims : option (nat * nat);          (* [None] for [(None, None)] *)
  meshgrid : gmap string value;
  vel_matrix : gmap string value }.

Definition set_min_points (n : Z) (s : instance) : instance :=
  {| name_tag := name_tag s; v3d_paths := v3d_paths s; min_points := n;
     velocity_fs := velocity_fs s;
     constituent_vel_matrix_list := constituent_vel_matrix_list s;
     x_set := x_set s; y_set := y_set s; dims := dims s;
     meshgrid := meshgrid s; vel_matrix := vel_matrix s |}.

Definition set_vel_matrix (t : gmap string value) (s : instance) : instance :=
  {| name_tag := name_tag s; v3d_paths := v3d_paths s; min_points := min_points s;
     velocity_fs := velocity_fs s;
     constituent_vel_matrix_list := constituent_vel_matrix_list s;
     x_set := x_set s; y_set := y_set s; dims := dims s;
     meshgrid := meshgrid s; vel_matrix := t |}.

Definition append_cvm (m : cvm) (s : instance) : instance :=
  {| name_tag := name_tag s; v3d_paths := v3d_paths s; min_points := min_points s;
     velocity_fs := velocity_fs s;
     constituent_vel_matrix_list := constituent_vel_matrix_list s ++ [m];
     x_set := x_set s; y_set := y_set s; dims := dims s;
     meshgrid := meshgrid s; vel_matrix := vel_matrix s |}.

(** Lines 98-101: the grid of the first sample becomes the instance's. *)
Definition inherit_grid (vf : VecField) (s : instance) : instance :=
  {| name_tag := name_tag s; v3d_paths := v3d_paths s; min_points := min_points s;
     velocity_fs := velocity_fs s;
     constituent_vel_matrix_list := constituent_vel_matrix_list s;
     x_set := vf_x_set vf; y_set := vf_y_set vf; dims := Some (vf_dims vf);
     meshgrid := vf_meshgrid vf; vel_matrix := vel_matrix s |}.

(** The keys of the field table, in the order of lines 37-57. *)
Definition field_keys : list string :=
  ["U"; "V"; "W"; "P"; "M"; "u"; "v"; "w"; "uu"; "vv"; "ww"; "cte";
   "uv"; "uw"; "vw"; "uvw"; "num"]%string.

(** Lines 23-57: the attributes [__init__] sets before any ingestion. *)
Definition new_instance (name_tag : option string) (v3d_paths : option loc)
    (min_points : Z) (velocity_fs : option Qc) : instance :=
  {| name_tag := name_tag; v3d_paths := v3d_paths; min_points := min_points;
     velocity_fs := velocity_fs;
     constituent_vel_matrix_list := [];
     x_set := VNone; y_set := VNone; dims := None;
     meshgrid := list_to_map [("x_mesh", VNone); ("y_mesh", VNone)]%string;
     vel_matrix := list_to_map ((λ k, (k, VNone)) <$> field_keys) |}.

(** ** Exceptions and the state monad of the methods *)

Inductive exn : Type :=
  | IndexError          (* [pop] from an empty list *)
  | AssertionError      (* a failed [assert] *)
  | AttributeError      (* raised by [__setitem__] *)
  | TypeError           (* arithmetic on [None] *)
  | LoaderError.        (* whatever the sample loader raises *)

Inductive outcome (A : Type) : Type :=
  | Ret (a : A)
  | Raise (e : exn).
Arguments Ret {A} a.
Arguments Raise {A} e.

Record world : Type := World {
  lists : gmap loc (list string);
  self : instance }.

(** A method is a function of the world that returns or raises, and
    leaves a world behind in both cases. *)
Definition M (A : Type) : Type := world → outcome A * world.

Global Instance M_ret : MRet M := λ A a w, (Ret a, w).
Global Instance M_bind : MBind M := λ A B f m w,
  match m w with
  | (Ret a, w') => f a w'
  | (Raise e, w') => (Raise e, w')
  end.

Definition raise {A} (e : exn) : M A := λ w, (Raise e, w).
Definition gets {A} (f : instance → A) : M A := λ w, (Ret (f (self w)), w).
Definition modify (f : instance → instance) : M unit :=
  λ w, (Ret (), World (lists w) (f (self w))).

(** [for x in l: body]. *)
Fixpoint for_each {A} (l : list A) (body : A → M unit) : M unit :=
  match l with
  | [] => mret ()
  | x :: l' => body x ;; for_each l' body
  end.

(** A [for] loop that updates local variables [s]. *)
Fixpoint for_fold {A S} (l : list A) (body : S → A → M S) (s : S) : M S :=
  match l with
  | [] => mret s
  | x :: l' => s' ← body s x; for_fold l' body s'
  end.

(** [l.pop(0)] on the list at [l]. *)
Definition list_pop0 (l : loc) : M string := λ w,
  match lists w !! l with
  | Some (p :: ps) => (Ret p, World (<[l := ps]> (lists w)) (self w))
  | Some [] => (Raise IndexError, w)
  | None => (Raise TypeError, w)      (* not a list *)
  end.

Definition list_read (l : loc) : M (list string) := λ w,
  match lists w !! l with
  | Some ps => (Ret ps, w)
  | None => (Raise TypeError, w)
  end.

(** ** The accessors *)

(** Lines 64-74.  Falling off the end of the method returns [None]. *)
Definition __getitem__ (key : string) : M value :=
  s ← gets id;
  if decide (key ∈ dom (vel_matrix s)) then
    mret (vel_matrix s !!! key)
  else if decide (String.rev key ∈ dom (vel_matrix s)) then
    mret (vel_matrix s !!! String.rev key)
  else if decide (key ∈ dom (meshgrid s)) then
    mret (meshgrid s !!! key)
  else mret VNone.

(** Lines 77-84. *)
Definition __setitem__ (key : string) (v : value) : M unit :=
  s ← gets id;
  if decide (key ∈ dom (vel_matrix s)) then
    modify (set_vel_matrix (<[key := v]> (vel_matrix s)))
  else if decide (String.rev key ∈ dom (vel_matrix s)) then
    modify (set_vel_matrix (<[String.rev key := v]> (vel_matrix s)))
  else raise AttributeError.

(** [self[key]] used as an operand of array arithmetic. *)
Definition self_arr (key : string) : M marray2 :=
  v ← __getitem__ key;
  match v with
  | VArr a => mret a
  | _ => raise TypeError
  end.

(** ** Ingestion and aggregation *)

Section program.

(** [x ** 0.5] on one number. *)
Variable sqrt : Qc → Qc.

(** The constructor of the loader class: a path and the free-stream
    velocity give a sample, or the loader raises. *)
Variable VecFieldCartesian : string → option Qc → option VecField.

Definition load (path : string) : M VecField :=
  fs ← gets velocity_fs;
  match VecFieldCartesian path fs with
  | Some vf => mret vf
  | None => raise LoaderError
  end.

(** Lines 114-171.  The [min_points=None] default is not modelled: the
    parameter is always an integer here, as in the call of line 111. *)
Definition _average_cartesian (min_points : Z) : M unit :=
  modify (set_min_points min_points) ;;
  cvl ← gets constituent_vel_matrix_list;
  d ← gets dims;
  '(R, Cn) ← from_option mret (raise TypeError) d;
  let depth := length cvl in
  let zeros := ma_zeros3 R Cn depth in
  let '(u_set, v_set, w_set) :=
    foldl (λ '(u, v, w) '(i, m),
             (set_layer u i (cU m), set_layer v i (cV m), set_layer w i (cW m)))
          (zeros, zeros, zeros) (enumerate cvl) in
  let mpm := ew1 (λ n, bool_decide (Z.of_nat n ≤ min_points)%Z)
                 (count_axis2 u_set) in
  __setitem__ "num"
    (VArr (masked_array2 (ew1 (λ n, Some (Ma.of_nat n)) (count_axis2 u_set)) mpm)) ;;
  __setitem__ "U" (VArr (masked_array2 (mean_axis2 u_set) mpm)) ;;
  __setitem__ "V" (VArr (masked_array2 (mean_axis2 v_set) mpm)) ;;
  __setitem__ "W" (VArr (masked_array2 (mean_axis2 w_set) mpm)) ;;
  U ← self_arr "U"; V ← self_arr "V"; W ← self_arr "W";
  __setitem__ "M"
    (VArr (ew1 (fmap sqrt)
             (ew2 Ma.add (ew2 Ma.add (ew1 Ma.sq U) (ew1 Ma.sq V)) (ew1 Ma.sq W)))) ;;
  U ← self_arr "U"; V ← self_arr "V";
  __setitem__ "P" (VArr (ew1 (fmap sqrt) (ew2 Ma.add (ew1 Ma.sq U) (ew1 Ma.sq V)))) ;;
  '(u_set_p, v_set_p, w_set_p) ←
    for_fold (enumerate cvl)
      (λ '(up, vp, wp) '(i, _),
         U ← self_arr "U";
         let up := set_layer up i (ew2 Ma.sub (get_layer u_set i) U) in
         V ← self_arr "V";
         let vp := set_layer vp i (ew2 Ma.sub (get_layer v_set i) V) in
         W ← self_arr "W";
         let wp := set_layer wp i (ew2 Ma.sub (get_layer w_set i) W) in
         mret (up, vp, wp))
      (zeros, zeros, zeros);
  __setitem__ "u" (VArr (masked_array2 (mean_axis2 (abs3 u_set_p)) mpm)) ;;
  __setitem__ "v" (VArr (masked_array2 (mean_axis2 (abs3 v_set_p)) mpm)) ;;
  __setitem__ "w" (VArr (masked_array2 (mean_axis2 (abs3 w_set_p)) mpm)) ;;
  __setitem__ "uu" (VArr (masked_array2 (mean_axis2 (mul3 u_set_p u_set_p)) mpm)) ;;
  __setitem__ "vv" (VArr (masked_array2 (mean_axis2 (mul3 v_set_p v_set_p)) mpm)) ;;
  __setitem__ "ww" (VArr (masked_array2 (mean_axis2 (mul3 w_set_p w_set_p)) mpm)) ;;
  uu ← self_arr "uu"; vv ← self_arr "vv"; ww ← self_arr "ww";
  __setitem__ "cte" (VArr (ew1 Ma.half (ew2 Ma.add (ew2 Ma.add uu vv) ww))) ;;
  __setitem__ "uv" (VArr (masked_array2 (mean_axis2 (mul3 u_set_p v_set_p)) mpm)) ;;
  __setitem__ "uw" (VArr (masked_array2 (mean_axis2 (mul3 u_set_p w_set_p)) mpm)) ;;
  __setitem__ "vw" (VArr (masked_array2 (mean_axis2 (mul3 v_set_p w_set_p)) mpm)) ;;
  __setitem__ "uvw"
    (VArr (masked_array2 (mean_axis2 (mul3 (mul3 u_set_p v_set_p) w_set_p)) mpm)).

(** Lines 87-111 (the timer and the progress message are left out). *)
Definition ingest_paths (filepath_list : loc) : M unit :=
  p ← list_pop0 filepath_list;
  first_vf ← load p;
  modify (inherit_grid first_vf) ;;
  modify (append_cvm (vf_vel_matrix first_vf)) ;;
  rest ← list_read filepath_list;
  for_each rest (λ path,
    next_vf ← load path;
    (if decide (vf_dims next_vf = vf_dims first_vf) then mret ()
     else raise AssertionError) ;;
    modify (append_cvm (vf_vel_matrix next_vf))) ;;
  mp ← gets min_points;
  _average_cartesian mp.

(** Lines 13-61. *)
Definition __init__ (name_tag : option string) (v3d_paths : option loc)
    (min_points : Z) (velocity_fs : option Qc) : M unit :=
  modify (λ _, new_instance name_tag v3d_paths min_points velocity_fs) ;;
  match v3d_paths with
  | Some l => ingest_paths l
  | None => mret ()
  end.

(** The expression [MeanVecFieldCartesian(...)]: the caller gets the
    instance only when [__init__] returns; the lists it passed are what
    [__init__] left of them either way. *)
Definition MeanVecFieldCartesian (name_tag : option string)
    (v3d_paths : option loc) (min_points : Z) (velocity_fs : option Qc)
    (σ : gmap loc (list string)) : outcome instance * gmap loc (list string) :=
  let blank := new_instance None None 20 None in
  match __init__ name_tag v3d_paths min_points velocity_fs (World σ blank) with
  | (Ret _, w) => (Ret (self w), lists w)
  | (Raise e, w) => (Raise e, lists w)
  end.

End program.

(** ** The statistics, cell by cell

    Every array expression of [_average_cartesian] acts on each grid cell
    independently.  [Cell] is the same computation read at one cell, on the
    three series of samples [us], [vs], [ws] of that cell;
    [average_cartesian_run] below proves that the array program computes
    exactly these. *)

Module Cell.
Section cell.
Variable sqrt : Qc → Qc.
Variable min_points : Z.
Variables us vs ws : list Ma.cell.

(** Line 142. *)
Definition mpm : bool := bool_decide (Z.of_nat (Ma.count us) ≤ min_points)%Z.
Definition num : Ma.cell := Ma.masked_array (Some (Ma.of_nat (Ma.count us))) mpm.

(** [np.ma.masked_array(np.ma.mean(xs, axis=2), mask=mpm)]. *)
Definition mean_of (xs : list Ma.cell) : Ma.cell :=
  Ma.masked_array (Ma.mean xs) mpm.

Definition U : Ma.cell := mean_of us.
Definition V : Ma.cell := mean_of vs.
Definition W : Ma.cell := mean_of ws.

Definition M : Ma.cell := sqrt <$> Ma.add (Ma.add (Ma.sq U) (Ma.sq V)) (Ma.sq W).
Definition P : Ma.cell := sqrt <$> Ma.add (Ma.sq U) (Ma.sq V).

(** Lines 154-157: the series of fluctuations about the masked mean. *)
Definition fluct (xs : list Ma.cell) (m : Ma.cell) : list Ma.cell :=
  map (λ x, Ma.sub x m) xs.
Definition u_p : list Ma.cell := fluct us U.
Definition v_p : list Ma.cell := fluct vs V.
Definition w_p : list Ma.cell := fluct ws W.

Definition u : Ma.cell := mean_of (map Ma.abs u_p).
Definition v : Ma.cell := mean_of (map Ma.abs v_p).
Definition w : Ma.cell := mean_of (map Ma.abs w_p).

Definition uu : Ma.cell := mean_of (zip_with Ma.mul u_p u_p).
Definition vv : Ma.cell := mean_of (zip_with Ma.mul v_p v_p).
Definition ww : Ma.cell := mean_of (zip_with Ma.mul w_p w_p).
Definition cte : Ma.cell := Ma.half (Ma.add (Ma.add uu vv) ww).

Definition uv : Ma.cell := mean_of (zip_with Ma.mul u_p v_p).
Definition uw : Ma.cell := mean_of (zip_with Ma.mul u_p w_p).
Definition vw : Ma.cell := mean_of (zip_with Ma.mul v_p w_p).
Definition uvw : Ma.cell :=
  mean_of (zip_with Ma.mul (zip_with Ma.mul u_p v_p) w_p).
End cell.
End Cell.

(** The statistic stored under each key, in the order of the assignments
    of lines 143-171. *)
Definition stat : Type :=
  (Qc → Qc) → Z → list Ma.cell → list Ma.cell → list Ma.cell → Ma.cell.

Definition stats_fields : list (string * stat) :=
  [ ("num", λ _ mp us _ _, Cell.num mp us);
    ("U", λ _ mp us _ _, Cell.U mp us);
    ("V", λ _ mp us vs _, Cell.V mp us vs);
    ("W", λ _ mp us _ ws, Cell.W mp us ws);
    ("M", Cell.M);
    ("P", λ sqrt mp us vs _, Cell.P sqrt mp us vs);
    ("u", λ _ mp us _ _, Cell.u mp us);
    ("v", λ _ mp us vs _, Cell.v mp us vs);
    ("w", λ _ mp us _ ws, Cell.w mp us ws);
    ("uu", λ _ mp us _ _, Cell.uu mp us);
    ("vv", λ _ mp us vs _, Cell.vv mp us vs);
    ("ww", λ _ mp us _ ws, Cell.ww mp us ws);
    ("cte", λ _, Cell.cte);
    ("uv", λ _ mp us vs _, Cell.uv mp us vs);
    ("uw", λ _ mp us _ ws, Cell.uw mp us ws);
    ("vw", λ _, Cell.vw);
    ("uvw", λ _, Cell.uvw) ]%string.

(** The series of one cell along the sample axis. *)
Definition series (f : cvm → marray2) (cvl : list cvm) (r c : nat) : list Ma.cell :=
  map (λ m, at2 (f m) r c) cvl.

Definition stat_array (sqrt : Qc → Qc) (mp : Z) (R Cn : nat) (cvl : list cvm)
    (F : stat) : marray2 :=
  tab R Cn (λ r c, F sqrt mp (series cU cvl r c) (series cV cvl r c)
                     (series cW cvl r c)).

(** The field table after an aggregation that started from table [t]. *)
Definition stats_table (sqrt : Qc → Qc) (mp : Z) (R Cn : nat) (cvl : list cvm)
    (t : gmap string value) : gmap string value :=
  foldl (λ t '(k, F), <[k := VArr (stat_array sqrt mp R Cn cvl F)]> t)
        t stats_fields.

(** The field table has (at least) its seventeen keys. *)
Definition table_ok (t : gmap string value) : Prop :=
  ∀ k, k ∈ field_keys → is_Some (t !! k).

(** The worlds [_average_cartesian] is meant to run in, those an ingestion
    leaves: the grid is known, there is at least one retained sample, every
    retained sample has the grid's shape, and the field table has its
    keys. *)
Definition ready (R Cn : nat) (s : instance) : Prop :=
  dims s = Some (R, Cn) ∧
  constituent_vel_matrix_list s ≠ [] ∧
  Forall (cvm_shape R Cn) (constituent_vel_matrix_list s) ∧
  table_ok (vel_matrix s).



(** The textbook estimators the statistics are compared with: the mean of
    a list of numbers, and the variance about that mean with the number of
    entries as divisor (population variance). *)
Definition ensemble_mean (l : list Qc) : Qc :=
  Ma.total l / Ma.of_nat (length l).

Definition population_variance (l : list Qc) : Qc :=
  Ma.total (map (λ x, (x - ensemble_mean l) * (x - ensemble_mean l)) l)
  / Ma.of_nat (length l).

(** Cell [(r, c)] of field [k] of an instance: [Some None] is a masked
    cell, [None] means there is no such field or no such cell. *)
Definition read_cell (s : instance) (k : string) (r c : nat) : option Ma.cell :=
  match vel_matrix s !! k with
  | Some (VArr a) => a !! r ≫= (λ row, row !! c)
  | _ => None
  end.

(** The field table of a live instance has the keys of [field_keys] and
    no other ([__setitem__] never adds one). *)
Definition table_exact (t : gmap string value) : Prop :=
  dom t = list_to_set field_keys.

(** [paths] load, in order, as the samples [vfs]. *)
Definition loads (VecFieldCartesian : string → option Qc → option VecField)
    (fs : option Qc) (paths : list string) (vfs : list VecField) : Prop :=
  Forall2 (λ p vf, VecFieldCartesian p fs = Some vf) paths vfs.

(** The instance once lines 96-107 have retained the first sample and the
    samples [more] after it. *)
Definition retain (first_vf : VecField) (more : list VecField) (s : instance) : instance :=
  foldl (λ s vf, append_cvm (vf_vel_matrix vf) s)
        (append_cvm (vf_vel_matrix first_vf) (inherit_grid first_vf s)) more.

(** [path] loads as a sample on the [R] x [Cn] grid. *)
Definition on_grid (VecFieldCartesian : string → option Qc → option VecField)
    (fs : option Qc) (R Cn : nat) (path : string) : Prop :=
  ∃ vf, VecFieldCartesian path fs = Some vf ∧ vf_dims vf = (R, Cn) ∧
        cvm_shape R Cn (vf_vel_matrix vf).

(** Two more textbook estimators: the mean absolute deviation of a list
    about its mean, and the population covariance of two lists of equal
    length about their means. *)
Definition mean_abs_deviation (l : list Qc) : Qc :=
  Ma.total (map (λ x, Qcabs (x - ensemble_mean l)) l) / Ma.of_nat (length l).





(** For each component: the keys of its mean, of its mean absolute
    fluctuation and of its second moment, and its sample matrix. *)
Definition component_keys : list (string * string * string * (cvm → marray2)) :=
  [("U", "u", "uu", cU); ("V", "v", "vv", cV); ("W", "w", "ww", cW)]%string.

(** The fields that hold a count, an absolute value or a sum of squares. *)
Definition nonneg_keys : list string :=
  ["num"; "u"; "v"; "w"; "uu"; "vv"; "ww"; "cte"]%string.

(** A decidable form of [ready]. *)
Definition readyb (R Cn : nat) (s : instance) : bool :=
  bool_decide (dims s = Some (R, Cn))
  && bool_decide (0 < length (constituent_vel_matrix_list s))%nat
  && forallb (cvm_shapeb R Cn) (constituent_vel_matrix_list s)
  && forallb (λ k, bool_decide (is_Some (vel_matrix s !! k))) field_keys.

(** ** The same cells on doubles

    The statistics of [Cell] are taken over exact rationals.  The doubles
    the program computes with differ from them in two ways no rational
    model shows: a sum depends on the order of its additions, and a result
    can be infinite or not a number.  [np.ma] masks the cell of a power or
    of a quotient that is not finite.  This module gives, on binary64
    numbers, the mean of lines 146-148 and the magnitudes of lines
    150-151. *)
Module F64.
Import PrimFloat.

Definition cell : Type := option float.

(** The mask [np.ma] gives to a power or a quotient that is not finite. *)
Definition guard (x : float) : cell := if is_finite x then Some x else None.

Definition valid (l : list cell) : list float := omap id l.
Definition count (l : list cell) : nat := length (valid l).

(** The sum along the sample axis follows the order of the samples.
    [numpy] either adds the entries one after the other, or adds the
    accumulated rest to the first entry, depending on its version. *)
Definition total (l : list float) : float := foldl add 0%float l.

Definition total_from_first (l : list float) : float :=
  match l with
  | [] => 0%float
  | x :: l => (x + total l)%float
  end.

Fixpoint of_nat (n : nat) : float :=
  match n with
  | O => 0%float
  | S n => (of_nat n + 1)%float
  end.

(** [np.ma.mean(a, axis)]: the sum of the unmasked entries over their
    number, masked when there is none or when the quotient is not finite. *)
Definition mean (sum : list float → float) (l : list cell) : cell :=
  if decide (count l = 0%nat) then None
  else guard (sum (valid l) / of_nat (count l))%float.

(** [a ** 2], [a + b] and [a ** 0.5]. *)
Definition sq (a : cell) : cell := a ≫= λ x, guard (x * x)%float.

Definition plus (a b : cell) : cell :=
  match a, b with
  | Some x, Some y => Some (x + y)%float
  | _, _ => None
  end.

Definition root (a : cell) : cell := a ≫= λ x, guard (sqrt x).

(** Lines 150 and 151. *)
Definition M (U V W : cell) : cell := root (plus (plus (sq U) (sq V)) (sq W)).
Definition P (U V : cell) : cell := root (plus (sq U) (sq V)).

End F64.

(** ** Concrete samples

    A small loader for the examples: every sample lives on a 2 x 2 grid,
    except ["wide"], which is 2 x 3.  Samples ["a"], ["b"], ["c"] carry
    the U values 1, 3, 5 at cell (0, 0); in ["gap"] the V component alone
    is masked at cell (0, 0). *)
Module Demo.

(** A square root that is exact on squares of rationals. *)
Definition qsqrt (x : Qc) : Qc := Q2Qc (Z.sqrt (Qnum x) # Pos.sqrt (Qden x)).

Definition q (z : Z) : Ma.cell := Some (Qc_of_Z z).

Definition grid (x00 x01 x10 x11 : Ma.cell) : marray2 := [[x00; x01]; [x10; x11]].

Definition meshes : gmap string value :=
  list_to_map [("x_mesh", VArr (grid (q 0) (q 1) (q 0) (q 1)));
               ("y_mesh", VArr (grid (q 0) (q 0) (q 1) (q 1)))]%string.

Definition sample (U V W : marray2) : VecField :=
  {| vf_x_set := VAxis [Qc_of_Z 0; Qc_of_Z 1];
     vf_y_set := VAxis [Qc_of_Z 0; Qc_of_Z 1];
     vf_dims := (2, 2)%nat;
     vf_meshgrid := meshes;
     vf_vel_matrix := Cvm U V W |}.

Definition sample_a : VecField :=
  sample (grid (q 1) (q 2) (q 0) (q 4)) (grid (q 4) (q 1) (q 0) (q 3))
         (grid (q 0) (q 2) (q 2) (q 0)).
Definition sample_b : VecField :=
  sample (grid (q 3) (q 2) None (q 4)) (grid (q 4) (q 3) None (q 3))
         (grid (q 0) (q 1) None (q 0)).
Definition sample_c : VecField :=
  sample (grid (q 5) (q 2) (q 6) (q 4)) (grid (q 4) (q 5) (q 2) (q 3))
         (grid (q 0) (q 3) (q 1) (q 0)).
Definition sample_gap : VecField :=
  sample (grid (q 1) (q 1) (q 1) (q 1)) (grid None (q 1) (q 1) (q 1))
         (grid (q 1) (q 1) (q 1) (q 1)).
Definition sample_wide : VecField :=
  {| vf_x_set := VAxis [Qc_of_Z 0; Qc_of_Z 1; Qc_of_Z 2];
     vf_y_set := VAxis [Qc_of_Z 0; Qc_of_Z 1];
     vf_dims := (2, 3)%nat;
     vf_meshgrid := meshes;
     vf_vel_matrix :=
       Cvm [[q 1; q 1; q 1]; [q 1; q 1; q 1]] [[q 1; q 1; q 1]; [q 1; q 1; q 1]]
           [[q 1; q 1; q 1]; [q 1; q 1; q 1]] |}.

Definition loader (path : string) (velocity_fs : option Qc) : option VecField :=
  if decide (path = "a") then Some sample_a
  else if decide (path = "b") then Some sample_b
  else if decide (path = "c") then Some sample_c
  else if decide (path = "gap") then Some sample_gap
  else if decide (path = "wide") then Some sample_wide
  else None.

(** The caller's list [["a", "b", "c"]], at location 0. *)
Definition paths_abc : gmap loc (list string) := {[ 0%nat := ["a"; "b"; "c"]%string ]}.

(** Other caller lists: one whose third sample has another grid, an empty
    one, and the list [["a", "b", "c"]] next to a reordering of it. *)
Definition paths_mismatch : gmap loc (list string) :=
  {[ 0%nat := ["a"; "b"; "wide"; "c"]%string ]}.
Definition paths_empty : gmap loc (list string) := {[ 0%nat := []%list ]}.
Definition paths_two_orders : gmap loc (list string) :=
  {[ 0%nat := ["a"; "b"; "c"]%string; 1%nat := ["c"; "a"; "b"]%string ]}.

(** [MeanVecFieldCartesian()]: an instance without paths. *)
Definition fresh : instance := new_instance None None 20 None.

(** [MeanVecFieldCartesian("demo", ["a", "b", "c"], min_points=2)]. *)
Definition built : outcome instance * gmap loc (list string) :=
  MeanVecFieldCartesian qsqrt loader (Some "demo"%string) (Some 0%nat) 2 None paths_abc.

Definition built_instance : instance :=
  match built.1 with
  | Ret s => s
  | Raise _ => fresh
  end.

End Demo.

(** More caller lists for the examples: [["a", "b"]] and [["c"]] side by
    side, a list whose first path does not load, a list whose third path
    does not load, and a single path. *)
Module DemoMore.

Definition paths_split : gmap loc (list string) :=
  {[ 0%nat := ["a"; "b"]%string; 1%nat := ["c"%string]%list ]}.
Definition paths_bad_first : gmap loc (list string) :=
  {[ 0%nat := ["missing"; "a"]%string ]}.
Definition paths_bad_later : gmap loc (list string) :=
  {[ 0%nat := ["a"; "b"; "missing"; "c"]%string ]}.
Definition paths_single : gmap loc (list string) :=
  {[ 0%nat := ["c"%string]%list ]}.

(** [MeanVecFieldCartesian("one", ["c"], min_points=0)]. *)
Definition built_single : outcome instance * gmap loc (list string) :=
  MeanVecFieldCartesian Demo.qsqrt Demo.loader (Some "one"%string) (Some 0%nat) 0 None
    paths_single.

Definition single_instance : instance :=
  match built_single.1 with
  | Ret s => s
  | Raise _ => Demo.fresh
  end.





End DemoMore.

(** Series of doubles for the examples: the three values 1, 10^16 and
    -10^16 in two orders, and a value whose square is beyond the largest
    double. *)
Module DemoF64.
Import PrimFloat.

Definition series_1 : list F64.cell := [Some 1; Some 1e16; Some (-1e16)]%float.
Definition series_2 : list F64.cell := [Some 1e16; Some (-1e16); Some 1]%float.
Definition third : float := (1 / 3)%float.

End DemoF64.

(** ** The algebra of tabulated arrays *)

Lemma zip_with_map_same {A B C X} (h : A → B → C) (f : X → A) (g : X → B) l :
  zip_with h (map f l) (map g l) = map (λ x, h (f x) (g x)) l.
Proof. induction l as [|x l IH]; simpl; [done | by rewrite IH]. Qed.

Section tab_lemmas.
Context {A B C : Type}.

Lemma tab_ext (R Cn : nat) (f g : nat → nat → A) :
  (∀ r c, (r < R)%nat → (c < Cn)%nat → f r c = g r c) →
  tab R Cn f = tab R Cn g.
Proof.
  intros Hfg. unfold tab.
  apply map_ext_in. intros r Hr. apply in_seq in Hr.
  apply map_ext_in. intros c Hc. apply in_seq in Hc.
  apply Hfg; lia.
Qed.

Lemma ew1_tab (h : A → B) R Cn (f : nat → nat → A) :
  ew1 h (tab R Cn f) = tab R Cn (λ r c, h (f r c)).
Proof.
  unfold ew1, tab. rewrite map_map. apply map_ext. intros r.
  by rewrite map_map.
Qed.

Lemma ew2_tab (h : A → B → C) R Cn f g :
  ew2 h (tab R Cn f) (tab R Cn g) = tab R Cn (λ r c, h (f r c) (g r c)).
Proof.
  unfold ew2, tab. rewrite zip_with_map_same. apply map_ext. intros r.
  apply zip_with_map_same.
Qed.

Lemma shape2b_spec R Cn (a : array2 A) : shape2b R Cn a = true ↔ shape2 R Cn a.
Proof.
  unfold shape2b, shape2. rewrite andb_true_iff, bool_decide_eq_true.
  rewrite forallb_forall, Forall_forall.
  split; intros [H1 H2]; split; try done; intros x Hx.
  - apply list_elem_of_In, H2 in Hx. by apply bool_decide_eq_true in Hx.
  - apply bool_decide_eq_true, H2. by apply list_elem_of_In.
Qed.

Lemma shape2_tab R Cn (f : nat → nat → A) : shape2 R Cn (tab R Cn f).
Proof.
  split; unfold tab.
  - by rewrite length_map, length_seq.
  - apply Forall_forall. intros row Hrow.
    apply list_elem_of_In, in_map_iff in Hrow as (r & <- & _).
    by rewrite length_map, length_seq.
Qed.
End tab_lemmas.

Lemma map_seq_lookup_total {A} `{Inhabited A} (l : list A) :
  map (λ i, l !!! i) (seq 0 (length l)) = l.
Proof.
  apply list_eq. intros i.
  destruct (decide (i < length l)%nat) as [Hi|Hi].
  - rewrite list_lookup_fmap, lookup_seq_lt by done. simpl.
    destruct (lookup_lt_is_Some_2 l i Hi) as [x Hx].
    by rewrite (list_lookup_total_correct _ _ _ Hx).
  - rewrite list_lookup_fmap, lookup_seq_ge, lookup_ge_None_2 by lia. done.
Qed.

(** An array of the right shape is the tabulation of its own cells. *)
Lemma shape2_is_tab {A} `{Inhabited A} R Cn (a : array2 A) :
  shape2 R Cn a → a = tab R Cn (at2 a).
Proof.
  intros [HR HC]. unfold tab, at2. subst R.
  rewrite <- (map_seq_lookup_total a) at 1.
  apply map_ext_in. intros r Hr. apply in_seq in Hr.
  assert (length (a !!! r) = Cn) as <-.
  { destruct (lookup_lt_is_Some_2 a r ltac:(lia)) as [row Hrow].
    rewrite (list_lookup_total_correct _ _ _ Hrow).
    rewrite Forall_forall in HC. apply HC. by eapply list_elem_of_lookup_2. }
  by rewrite map_seq_lookup_total.
Qed.

Lemma at2_tab {A} `{Inhabited A} R Cn (f : nat → nat → A) r c :
  (r < R)%nat → (c < Cn)%nat → at2 (tab R Cn f) r c = f r c.
Proof.
  intros Hr Hc. unfold at2, tab.
  rewrite (list_lookup_total_correct _ r (map (f r) (seq 0 Cn))).
  - apply list_lookup_total_correct.
    rewrite list_lookup_fmap, lookup_seq_lt by done. done.
  - rewrite list_lookup_fmap, lookup_seq_lt by done. done.
Qed.

(** ** Loops that fill an array layer by layer *)

Lemma replicate_as_map {A} (n : nat) (x : A) :
  replicate n x = map (λ _, x) (seq 0 n).
Proof.
  apply list_eq. intros i. rewrite list_lookup_fmap.
  destruct (decide (i < n)%nat).
  - rewrite lookup_replicate_2, lookup_seq_lt by done. done.
  - rewrite lookup_seq_ge by lia. apply lookup_replicate_None. lia.
Qed.

Lemma ma_zeros3_tab R Cn depth :
  ma_zeros3 R Cn depth = tab R Cn (λ _ _, replicate depth (Some 0)).
Proof. unfold ma_zeros3, tab. by rewrite !replicate_as_map. Qed.

Lemma set_layer_tab R Cn f i g :
  set_layer (tab R Cn f) i (tab R Cn g) = tab R Cn (λ r c, <[i := g r c]> (f r c)).
Proof. unfold set_layer. by rewrite ew2_tab. Qed.

Lemma set_layer_shape R Cn f i (m : marray2) :
  shape2 R Cn m →
  set_layer (tab R Cn f) i m = tab R Cn (λ r c, <[i := at2 m r c]> (f r c)).
Proof.
  intros Hm. rewrite <- set_layer_tab. f_equal. by apply shape2_is_tab.
Qed.

Lemma get_layer_tab R Cn f i :
  get_layer (tab R Cn f) i = tab R Cn (λ r c, f r c !!! i).
Proof. unfold get_layer. by rewrite ew1_tab. Qed.

(** Writing slot [i] for every [(i, x)] of [enumerate l] into a series of
    the right length builds the series [g 0 x0, g 1 x1, ...]. *)
Lemma fill_series_from {A B} (g : nat → A → B) (l : list A) (pre post : list B) :
  length post = length l →
  foldl (λ s '(i, x), <[i := g i x]> s) (pre ++ post)
        (zip (seq (length pre) (length l)) l)
  = pre ++ imap (λ i, g (length pre + i)%nat) l.
Proof.
  revert pre post. induction l as [|x l IH]; intros pre post Hlen.
  - destruct post; [done | discriminate].
  - destruct post as [|b post]; [discriminate|]. simpl in Hlen.
    cbn [length seq zip zip_with foldl imap].
    rewrite insert_app_r_alt, Nat.sub_diag by lia. cbn [insert list_insert].
    replace (pre ++ g (length pre) x :: post)
      with ((pre ++ [g (length pre) x]) ++ post) by by rewrite <- app_assoc.
    replace (S (length pre)) with (length (pre ++ [g (length pre) x]))
      by (rewrite length_app; simpl; lia).
    rewrite IH by lia. rewrite <- app_assoc. simpl.
    rewrite Nat.add_0_r. do 2 f_equal.
    apply imap_ext. intros i y _. simpl. f_equal.
    rewrite length_app. simpl. lia.
Qed.

Lemma fill_series {A B} (g : nat → A → B) (l : list A) (z : B) :
  foldl (λ s '(i, x), <[i := g i x]> s) (replicate (length l) z) (enumerate l)
  = imap g l.
Proof.
  unfold enumerate.
  pose proof (fill_series_from g l [] (replicate (length l) z)) as H.
  simpl in H. rewrite H by by rewrite length_replicate. done.
Qed.

Lemma imap_lookup_map {A B C} (f : A → B) (h : B → C) (l : list A)
    `{Inhabited B} :
  imap (λ i _, h (map f l !!! i)) l = map (λ x, h (f x)) l.
Proof.
  apply list_eq. intros i. rewrite list_lookup_imap, list_lookup_fmap.
  destruct (l !! i) as [x|] eqn:Hx; simpl; [|done].
  f_equal. f_equal. apply list_lookup_total_correct.
  by rewrite list_lookup_fmap, Hx.
Qed.

Section fill_arrays.
Variables R Cn : nat.

Lemma fill_arrays (l : list (nat * cvm)) fu fv fw :
  Forall (λ p, cvm_shape R Cn p.2) l →
  foldl (λ '(u, v, w) '(i, m),
           (set_layer u i (cU m), set_layer v i (cV m), set_layer w i (cW m)))
        (tab R Cn fu, tab R Cn fv, tab R Cn fw) l
  = (tab R Cn (λ r c, foldl (λ s '(i, m), <[i := at2 (cU m) r c]> s) (fu r c) l),
     tab R Cn (λ r c, foldl (λ s '(i, m), <[i := at2 (cV m) r c]> s) (fv r c) l),
     tab R Cn (λ r c, foldl (λ s '(i, m), <[i := at2 (cW m) r c]> s) (fw r c) l)).
Proof.
  revert fu fv fw. induction l as [|[i m] l IH]; intros fu fv fw Hl; [done|].
  apply Forall_cons in Hl as [(HU & HV & HW) Hl]. simpl in HU, HV, HW.
  cbn [foldl]. by rewrite !set_layer_shape, IH by done.
Qed.

Lemma enumerate_shape (cvl : list cvm) :
  Forall (cvm_shape R Cn) cvl →
  Forall (λ p : nat * cvm, cvm_shape R Cn p.2) (enumerate cvl).
Proof.
  intros H. apply Forall_forall. intros [i m] Him.
  unfold enumerate in Him. apply elem_of_zip_r in Him.
  rewrite Forall_forall in H. by apply H.
Qed.

(** Lines 136-139 leave in each stack the series of every cell. *)
Lemma stack_samples (cvl : list cvm) :
  Forall (cvm_shape R Cn) cvl →
  foldl (λ '(u, v, w) '(i, m),
           (set_layer u i (cU m), set_layer v i (cV m), set_layer w i (cW m)))
        (ma_zeros3 R Cn (length cvl), ma_zeros3 R Cn (length cvl),
         ma_zeros3 R Cn (length cvl)) (enumerate cvl)
  = (tab R Cn (series cU cvl), tab R Cn (series cV cvl), tab R Cn (series cW cvl)).
Proof.
  intros H. rewrite ma_zeros3_tab.
  rewrite fill_arrays by by apply enumerate_shape.
  f_equal; [f_equal|]; apply tab_ext; intros r c _ _.
  - rewrite (fill_series (λ _ m, at2 (cU m) r c)). apply imap_const.
  - rewrite (fill_series (λ _ m, at2 (cV m) r c)). apply imap_const.
  - rewrite (fill_series (λ _ m, at2 (cW m) r c)). apply imap_const.
Qed.

(** Lines 154-157, once the means [U], [V], [W] are known. *)
Lemma fluct_arrays {X} (l : list (nat * X)) us vs ws Uf Vf Wf fu fv fw :
  foldl (λ '(up, vp, wp) '(i, _),
           (set_layer up i (ew2 Ma.sub (get_layer (tab R Cn us) i) (tab R Cn Uf)),
            set_layer vp i (ew2 Ma.sub (get_layer (tab R Cn vs) i) (tab R Cn Vf)),
            set_layer wp i (ew2 Ma.sub (get_layer (tab R Cn ws) i) (tab R Cn Wf))))
        (tab R Cn fu, tab R Cn fv, tab R Cn fw) l
  = (tab R Cn (λ r c, foldl (λ s '(i, _), <[i := Ma.sub (us r c !!! i) (Uf r c)]> s)
                        (fu r c) l),
     tab R Cn (λ r c, foldl (λ s '(i, _), <[i := Ma.sub (vs r c !!! i) (Vf r c)]> s)
                        (fv r c) l),
     tab R Cn (λ r c, foldl (λ s '(i, _), <[i := Ma.sub (ws r c !!! i) (Wf r c)]> s)
                        (fw r c) l)).
Proof.
  revert fu fv fw. induction l as [|[i m] l IH]; intros fu fv fw; [done|].
  cbn [foldl]. rewrite !get_layer_tab, !ew2_tab, !set_layer_tab, IH. done.
Qed.

Lemma fluct_series (f : cvm → marray2) (cvl : list cvm) (m : Ma.cell) r c :
  foldl (λ s '(i, _), <[i := Ma.sub (series f cvl r c !!! i) m]> s)
        (replicate (length cvl) (Some 0)) (enumerate cvl)
  = Cell.fluct (series f cvl r c) m.
Proof.
  rewrite (fill_series (λ i _, Ma.sub (series f cvl r c !!! i) m)).
  unfold series, Cell.fluct.
  rewrite (imap_lookup_map (λ m0, at2 (f m0) r c) (λ x, Ma.sub x m)).
  by rewrite map_map.
Qed.
End fill_arrays.

(** ** Running the methods *)

Lemma bind_run {A B} (m : M A) (f : A → M B) w a w' :
  m w = (Ret a, w') → (m ≫= f) w = f a w'.
Proof. intros H. unfold mbind, M_bind. by rewrite H. Qed.

Lemma bind_raise {A B} (m : M A) (f : A → M B) w e w' :
  m w = (Raise e, w') → (m ≫= f) w = (Raise e, w').
Proof. intros H. unfold mbind, M_bind. by rewrite H. Qed.

Lemma for_fold_pure {A S} (l : list A) (body : S → A → M S) (f : S → A → S) w :
  (∀ s x, body s x w = (Ret (f s x), w)) →
  ∀ s, for_fold l body s w = (Ret (foldl f s l), w).
Proof.
  intros Hbody. induction l as [|x l IH]; intros s; [done|].
  cbn [for_fold foldl]. erewrite bind_run by apply Hbody. apply IH.
Qed.

Section accessors.
Variables (σ : gmap loc (list string)) (s : instance).
Implicit Types (k : string) (v : value).

Lemma getitem_field k v :
  vel_matrix s !! k = Some v → __getitem__ k (World σ s) = (Ret v, World σ s).
Proof.
  intros H. unfold __getitem__. erewrite bind_run by reflexivity. simpl.
  rewrite decide_True by (apply elem_of_dom; eauto).
  by rewrite (lookup_total_correct _ _ _ H).
Qed.

Lemma getitem_reversed k v :
  vel_matrix s !! k = None → vel_matrix s !! String.rev k = Some v →
  __getitem__ k (World σ s) = (Ret v, World σ s).
Proof.
  intros Hk H. unfold __getitem__. erewrite bind_run by reflexivity. simpl.
  rewrite decide_False by by apply not_elem_of_dom.
  rewrite decide_True by (apply elem_of_dom; eauto).
  by rewrite (lookup_total_correct _ _ _ H).
Qed.

Lemma getitem_mesh k v :
  vel_matrix s !! k = None → vel_matrix s !! String.rev k = None →
  meshgrid s !! k = Some v →
  __getitem__ k (World σ s) = (Ret v, World σ s).
Proof.
  intros Hk Hr H. unfold __getitem__. erewrite bind_run by reflexivity. simpl.
  rewrite !decide_False by by apply not_elem_of_dom.
  rewrite decide_True by (apply elem_of_dom; eauto).
  by rewrite (lookup_total_correct _ _ _ H).
Qed.

Lemma getitem_unknown k :
  vel_matrix s !! k = None → vel_matrix s !! String.rev k = None →
  meshgrid s !! k = None →
  __getitem__ k (World σ s) = (Ret VNone, World σ s).
Proof.
  intros Hk Hr H. unfold __getitem__. erewrite bind_run by reflexivity. simpl.
  by rewrite !decide_False by by apply not_elem_of_dom.
Qed.

Lemma self_arr_field k a :
  vel_matrix s !! k = Some (VArr a) → self_arr k (World σ s) = (Ret a, World σ s).
Proof.
  intros H. unfold self_arr. by erewrite bind_run by by apply getitem_field.
Qed.

Lemma setitem_field k v :
  is_Some (vel_matrix s !! k) →
  __setitem__ k v (World σ s)
  = (Ret (), World σ (set_vel_matrix (<[k := v]> (vel_matrix s)) s)).
Proof.
  intros H. unfold __setitem__. erewrite bind_run by reflexivity. simpl.
  by rewrite decide_True by by apply elem_of_dom.
Qed.

Lemma setitem_reversed k v :
  vel_matrix s !! k = None → is_Some (vel_matrix s !! String.rev k) →
  __setitem__ k v (World σ s)
  = (Ret (), World σ (set_vel_matrix (<[String.rev k := v]> (vel_matrix s)) s)).
Proof.
  intros Hk H. unfold __setitem__. erewrite bind_run by reflexivity. simpl.
  rewrite decide_False by by apply not_elem_of_dom.
  by rewrite decide_True by by apply elem_of_dom.
Qed.

Lemma setitem_unknown k v :
  vel_matrix s !! k = None → vel_matrix s !! String.rev k = None →
  __setitem__ k v (World σ s) = (Raise AttributeError, World σ s).
Proof.
  intros Hk Hr. unfold __setitem__. erewrite bind_run by reflexivity. simpl.
  by rewrite !decide_False by by apply not_elem_of_dom.
Qed.
End accessors.

Lemma fluct_stack R Cn (cvl : list cvm) Uf Vf Wf :
  foldl (λ '(up, vp, wp) '(i, _),
           (set_layer up i (ew2 Ma.sub (get_layer (tab R Cn (series cU cvl)) i) (tab R Cn Uf)),
            set_layer vp i (ew2 Ma.sub (get_layer (tab R Cn (series cV cvl)) i) (tab R Cn Vf)),
            set_layer wp i (ew2 Ma.sub (get_layer (tab R Cn (series cW cvl)) i) (tab R Cn Wf))))
        (ma_zeros3 R Cn (length cvl), ma_zeros3 R Cn (length cvl),
         ma_zeros3 R Cn (length cvl)) (enumerate cvl)
  = (tab R Cn (λ r c, Cell.fluct (series cU cvl r c) (Uf r c)),
     tab R Cn (λ r c, Cell.fluct (series cV cvl r c) (Vf r c)),
     tab R Cn (λ r c, Cell.fluct (series cW cvl r c) (Wf r c))).
Proof.
  rewrite ma_zeros3_tab, fluct_arrays.
  f_equal; [f_equal|]; apply tab_ext; intros r c _ _; apply fluct_series.
Qed.

Section steps.
Variables (σ : gmap loc (list string)) (t : gmap string value) (s0 : instance).

Lemma setitem_step k v :
  is_Some (t !! k) →
  __setitem__ k v (World σ (set_vel_matrix t s0))
  = (Ret (), World σ (set_vel_matrix (<[k := v]> t) s0)).
Proof. intros H. by rewrite setitem_field. Qed.

Lemma self_arr_step k a :
  t !! k = Some (VArr a) →
  self_arr k (World σ (set_vel_matrix t s0))
  = (Ret a, World σ (set_vel_matrix t s0)).
Proof. intros H. by rewrite (self_arr_field _ _ k a). Qed.

Lemma fluct_loop {X} (l : list (nat * X)) (us vs ws : marray3) Ua Va Wa acc :
  t !! "U"%string = Some (VArr Ua) →
  t !! "V"%string = Some (VArr Va) →
  t !! "W"%string = Some (VArr Wa) →
  for_fold l
    (λ '(up, vp, wp) '(i, _),
       U ← self_arr "U";
       let up := set_layer up i (ew2 Ma.sub (get_layer us i) U) in
       V ← self_arr "V";
       let vp := set_layer vp i (ew2 Ma.sub (get_layer vs i) V) in
       W ← self_arr "W";
       let wp := set_layer wp i (ew2 Ma.sub (get_layer ws i) W) in
       mret (up, vp, wp)) acc (World σ (set_vel_matrix t s0))
  = (Ret (foldl (λ '(up, vp, wp) '(i, _),
                   (set_layer up i (ew2 Ma.sub (get_layer us i) Ua),
                    set_layer vp i (ew2 Ma.sub (get_layer vs i) Va),
                    set_layer wp i (ew2 Ma.sub (get_layer ws i) Wa)))
                acc l),
     World σ (set_vel_matrix t s0)).
Proof.
  intros HU HV HW. revert acc. apply for_fold_pure.
  intros [[up vp] wp] [i x].
  erewrite bind_run by by apply self_arr_step. cbv zeta.
  erewrite bind_run by by apply self_arr_step.
  erewrite bind_run by by apply self_arr_step. done.
Qed.
End steps.

Ltac table_lookup :=
  repeat first [ rewrite lookup_insert_eq | rewrite lookup_insert_ne by done ].

Ltac to_tab :=
  unfold masked_array2, mean_axis2, count_axis2, abs3, mul3;
  repeat first [rewrite ew1_tab | rewrite ew2_tab].

Ltac key_ok :=
  table_lookup; first [by eauto | match goal with H : _ |- _ => apply H; compute_done end].
Ltac set_step := erewrite bind_run by (apply setitem_step; key_ok).
Ltac get_step := erewrite bind_run by (apply self_arr_step; table_lookup; reflexivity).

(** What one aggregation pass does: it cannot fail in a ready world, it
    records [min_points], and it overwrites the seventeen fields with the
    cell-wise statistics of the retained samples. *)
Lemma average_cartesian_run sqrt mp σ s R Cn :
  ready R Cn s →
  _average_cartesian sqrt mp (World σ s)
  = (Ret (), World σ (set_vel_matrix
                        (stats_table sqrt mp R Cn (constituent_vel_matrix_list s)
                           (vel_matrix s))
                        (set_min_points mp s))).
Proof.
  intros (Hd & _ & Hshape & Ht).
  assert (∀ k, k ∈ field_keys → is_Some (vel_matrix s !! k)) as Ht' by done.
  unfold _average_cartesian.
  erewrite bind_run by reflexivity.
  erewrite bind_run by reflexivity.
  erewrite bind_run by reflexivity.
  cbn [lists self dims set_min_points constituent_vel_matrix_list].
  rewrite Hd. cbn [from_option].
  erewrite bind_run by reflexivity.
  cbv beta iota zeta.
  rewrite stack_samples by done. cbv beta iota.
  change (World σ (set_min_points mp s))
    with (World σ (set_vel_matrix (vel_matrix s) (set_min_points mp s))).
  to_tab.
  do 4 set_step.
  do 3 get_step. to_tab. set_step.
  do 2 get_step. to_tab. set_step.
  erewrite bind_run by (apply fluct_loop; table_lookup; reflexivity).
  rewrite fluct_stack. cbv beta iota. to_tab.
  do 6 set_step.
  do 3 get_step. to_tab.
  do 4 set_step.
  rewrite setitem_step by key_ok. reflexivity.
Qed.

(** ** Reading the table an aggregation leaves behind *)

Ltac each_field tac :=
  unfold stats_fields in *;
  repeat match goal with
    | H : (_, _) ∈ _ :: _ |- _ =>
        apply elem_of_cons in H as [H|H]; [injection H as -> ->; tac|]
    end;
  match goal with H : _ ∈ [] |- _ => by apply elem_of_nil in H end.

Lemma stats_table_lookup sqrt mp R Cn cvl t k F :
  (k, F) ∈ stats_fields →
  stats_table sqrt mp R Cn cvl t !! k = Some (VArr (stat_array sqrt mp R Cn cvl F)).
Proof.
  intros H.
  each_field ltac:(unfold stats_table, stats_fields; cbn [foldl];
                   table_lookup; reflexivity).
Qed.

Lemma stats_table_other sqrt mp R Cn cvl t k :
  k ∉ field_keys → stats_table sqrt mp R Cn cvl t !! k = t !! k.
Proof.
  intros H. unfold stats_table, stats_fields. cbn [foldl].
  repeat (rewrite lookup_insert_ne;
          [|intros <-; apply H; clear H; compute_done]).
  done.
Qed.

Lemma field_keys_stats k :
  k ∈ field_keys ↔ ∃ F, (k, F) ∈ stats_fields.
Proof.
  split.
  - intros H. unfold field_keys in H.
    repeat (apply elem_of_cons in H as [->|H];
            [eexists; unfold stats_fields;
             repeat first [apply list_elem_of_here | apply list_elem_of_further]|]).
    by apply elem_of_nil in H.
  - intros [F H]. each_field ltac:(compute_done).
Qed.

Lemma stats_table_ok sqrt mp R Cn cvl t : table_ok (stats_table sqrt mp R Cn cvl t).
Proof.
  intros k [F HF]%field_keys_stats. erewrite stats_table_lookup by done. eauto.
Qed.

(** After a pass in a ready world every field is an array of the grid's
    shape whose cells are the cell-wise statistics. *)
Lemma average_cartesian_cells sqrt mp σ s R Cn :
  ready R Cn s →
  ∃ s', _average_cartesian sqrt mp (World σ s) = (Ret (), World σ s') ∧
    constituent_vel_matrix_list s' = constituent_vel_matrix_list s ∧
    ready R Cn s' ∧
    ∀ k F, (k, F) ∈ stats_fields →
      ∃ a, vel_matrix s' !! k = Some (VArr a) ∧ shape2 R Cn a ∧
        ∀ r c, (r < R)%nat → (c < Cn)%nat →
          at2 a r c = F sqrt mp (series cU (constituent_vel_matrix_list s) r c)
                        (series cV (constituent_vel_matrix_list s) r c)
                        (series cW (constituent_vel_matrix_list s) r c).
Proof.
  intros Hready. eexists. split; [by apply average_cartesian_run|].
  destruct Hready as (Hd & Hne & Hs & Ht).
  split; [done|]. split; [split_and!; [done..|apply stats_table_ok]|].
  intros k F HF. eexists. split; [by apply stats_table_lookup|].
  split; [apply shape2_tab|]. intros r c Hr Hc.
  unfold stat_array. by rewrite at2_tab.
Qed.

(** ** Masks, cell by cell *)


Section cell_masks.
Variable sqrt : Qc → Qc.
Variable mp : Z.
Variables us vs ws : list Ma.cell.
Implicit Types (k : string) (F : stat).

Lemma mpm_true : Cell.mpm mp us = true ↔ (Z.of_nat (Ma.count us) ≤ mp)%Z.
Proof. apply bool_decide_eq_true. Qed.

Lemma mpm_false : Cell.mpm mp us = false ↔ (mp < Z.of_nat (Ma.count us))%Z.
Proof. unfold Cell.mpm. rewrite bool_decide_eq_false. lia. Qed.

(** Below the threshold, or on it, every statistic is masked. *)
Lemma low_count_masked k F :
  (k, F) ∈ stats_fields →
  (Z.of_nat (Ma.count us) ≤ mp)%Z → F sqrt mp us vs ws = None.
Proof.
  intros HF Hm%mpm_true.
  each_field ltac:(cbv beta;
    unfold Cell.num, Cell.U, Cell.V, Cell.W, Cell.M, Cell.P, Cell.u, Cell.v,
      Cell.w, Cell.uu, Cell.vv, Cell.ww, Cell.cte, Cell.uv, Cell.uw, Cell.vw,
      Cell.uvw, Cell.uu, Cell.vv, Cell.ww, Cell.U, Cell.V, Cell.W, Cell.mean_of;
    rewrite Hm; reflexivity).
Qed.

End cell_masks.

Lemma readyb_ready R Cn s : readyb R Cn s = true → ready R Cn s.
Proof.
  unfold readyb, ready. rewrite !andb_true_iff, !bool_decide_eq_true.
  intros [[[Hd Hne] Hs] Ht]. split_and!; [done|..].
  - intros E. rewrite E in Hne. simpl in Hne. lia.
  - rewrite forallb_forall in Hs. apply Forall_forall. intros m Hm.
    apply list_elem_of_In, Hs in Hm. unfold cvm_shapeb in Hm.
    rewrite !andb_true_iff, !shape2b_spec in Hm. by destruct Hm as [[??]?].
  - rewrite forallb_forall in Ht. intros k Hk.
    apply list_elem_of_In, Ht in Hk. by apply bool_decide_eq_true in Hk.
Qed.

(** ** Means and second moments of one cell *)

Lemma valid_fluct xs m :
  Ma.valid (Cell.fluct xs (Some m)) = map (λ x, x - m) (Ma.valid xs).
Proof.
  unfold Ma.valid, Cell.fluct.
  induction xs as [|[x|] xs IH]; simpl; [done | by f_equal | done].
Qed.

Lemma valid_mul_self xs :
  Ma.valid (zip_with Ma.mul xs xs) = map (λ x, x * x) (Ma.valid xs).
Proof.
  unfold Ma.valid. induction xs as [|[x|] xs IH]; simpl; [done | by f_equal | done].
Qed.

Lemma mean_valued xs :
  (0 < Ma.count xs)%nat → Ma.mean xs = Some (ensemble_mean (Ma.valid xs)).
Proof. intros H. unfold Ma.mean. by rewrite decide_False by lia. Qed.

Section cell_moments.
Variable mp : Z.
Variables us xs : list Ma.cell.
Hypothesis Hm : (mp < Z.of_nat (Ma.count us))%Z.
Hypothesis Hxs : (0 < Ma.count xs)%nat.

Lemma mean_of_valued :
  Cell.mean_of mp us xs = Some (ensemble_mean (Ma.valid xs)).
Proof.
  unfold Cell.mean_of. rewrite (proj2 (mpm_false mp us) Hm). simpl.
  by apply mean_valued.
Qed.

(** The second moment of a component is its population variance. *)
Lemma second_moment_valued :
  let x_p := Cell.fluct xs (Cell.mean_of mp us xs) in
  Cell.mean_of mp us (zip_with Ma.mul x_p x_p)
  = Some (population_variance (Ma.valid xs)).
Proof.
  intros x_p. subst x_p. rewrite mean_of_valued.
  unfold Cell.mean_of. rewrite (proj2 (mpm_false mp us) Hm). simpl.
  unfold Ma.mean, Ma.count.
  rewrite valid_mul_self, valid_fluct, !length_map, map_map.
  by rewrite decide_False by (unfold Ma.count in Hxs; lia).
Qed.
End cell_moments.

(** * The claims *)

(** C1 (as amended).  An aggregation pass in a ready world succeeds; at
    every cell the field [num] holds the number of unmasked U samples and is
    masked exactly when that number is at most [min_points]; every field is
    masked wherever that number is at most [min_points] (a cell with exactly
    [min_points] valid samples included).  Nothing is claimed in the other
    direction: above the threshold a field other than [num] can still be
    masked. *)
Theorem C1_mask_threshold sqrt mp σ s R Cn :
  ready R Cn s →
  ∃ s', _average_cartesian sqrt mp (World σ s) = (Ret (), World σ s') ∧
    ∀ k, k ∈ field_keys →
      ∃ a, vel_matrix s' !! k = Some (VArr a) ∧ shape2 R Cn a ∧
        ∀ r c, (r < R)%nat → (c < Cn)%nat →
          let cvl := constituent_vel_matrix_list s in
          let n := Ma.count (series cU cvl r c) in
          (k = "num"%string →
             at2 a r c = if bool_decide (Z.of_nat n ≤ mp)%Z then None
                         else Some (Ma.of_nat n)) ∧
          ((Z.of_nat n ≤ mp)%Z → at2 a r c = None).
Proof.
  intros Hready.
  destruct (average_cartesian_cells sqrt mp σ s R Cn Hready)
    as (s' & Hrun & _ & _ & Hcells).
  exists s'. split; [done|]. intros k Hk.
  assert (k = "num"%string → (k, (λ _ mp us _ _, Cell.num mp us) : stat) ∈ stats_fields)
    as Hnum by (intros ->; apply list_elem_of_here).
  apply field_keys_stats in Hk as [F HF].
  destruct (Hcells k F HF) as (a & Ha & Hshape & Hcell).
  exists a. split_and!; [done..|]. intros r c Hr Hc cvl n. split_and!.
  - intros Hk. destruct (Hcells k _ (Hnum Hk)) as (a' & Ha' & _ & Hcell').
    rewrite Ha in Ha'. injection Ha' as <-. by rewrite Hcell'.
  - intros Hn. rewrite Hcell by done. by eapply low_count_masked.
Qed.

Lemma C1_mask_threshold_witness :
  ∃ s' a,
    _average_cartesian Demo.qsqrt 2 (World ∅ Demo.built_instance) = (Ret (), World ∅ s') ∧
    vel_matrix s' !! "uv"%string = Some (VArr a) ∧
    at2 a 1 0 = None.
Proof.
  destruct (C1_mask_threshold Demo.qsqrt 2 ∅ Demo.built_instance 2 2)
    as (s' & Hrun & Hfields).
  { apply readyb_ready. vm_compute. reflexivity. }
  destruct (Hfields "uv"%string) as (a & Ha & _ & Hcell); [compute_done|].
  exists s', a. split_and!; [done..|].
  apply (Hcell 1 0)%nat; [lia..|]. vm_compute. discriminate.
Defined.

(** C1, as stated, fails: with [min_points = 0] and the single sample
    ["gap"], cell (0, 0) has one valid U sample, more than [min_points],
    and yet field [V] is masked there, because the V series of that cell has
    no valid entry. *)
Lemma C1_counterexample :
  ∃ s a,
    (MeanVecFieldCartesian Demo.qsqrt Demo.loader None (Some 0%nat) 0 None
       {[ 0%nat := ["gap"%string]%list ]}).1 = Ret s ∧
    vel_matrix s !! "V"%string = Some (VArr a) ∧
    at2 a 0 0 = None ∧
    ¬ (Z.of_nat (Ma.count (series cU (constituent_vel_matrix_list s) 0 0)) ≤ 0)%Z.
Proof.
  eexists _, _. split_and!.
  - vm_compute. reflexivity.
  - vm_compute. reflexivity.
  - vm_compute. reflexivity.
  - vm_compute. intros H. by apply H.
Qed.

Lemma lookup2_at2 {A} `{Inhabited A} R Cn (a : array2 A) r c :
  shape2 R Cn a → (r < R)%nat → (c < Cn)%nat →
  a !! r ≫= (λ row, row !! c) = Some (at2 a r c).
Proof.
  intros [HR HC] Hr Hc. unfold at2.
  destruct (lookup_lt_is_Some_2 a r ltac:(lia)) as [row Hrow].
  rewrite Hrow, (list_lookup_total_correct _ _ _ Hrow). simpl.
  assert (length row = Cn) as Hlen.
  { rewrite Forall_forall in HC. apply HC. by eapply list_elem_of_lookup_2. }
  destruct (lookup_lt_is_Some_2 row c ltac:(lia)) as [x Hx].
  by rewrite Hx, (list_lookup_total_correct _ _ _ Hx).
Qed.

(** The cell-wise reading of a pass, through [read_cell]. *)
Lemma average_cartesian_read sqrt mp σ s R Cn :
  ready R Cn s →
  ∃ s', _average_cartesian sqrt mp (World σ s) = (Ret (), World σ s') ∧
    ∀ k F r c, (k, F) ∈ stats_fields → (r < R)%nat → (c < Cn)%nat →
      read_cell s' k r c
      = Some (F sqrt mp (series cU (constituent_vel_matrix_list s) r c)
                (series cV (constituent_vel_matrix_list s) r c)
                (series cW (constituent_vel_matrix_list s) r c)).
Proof.
  intros Hready.
  destruct (average_cartesian_cells sqrt mp σ s R Cn Hready)
    as (s' & Hrun & _ & _ & Hcells).
  exists s'. split; [done|]. intros k F r c HF Hr Hc.
  destruct (Hcells k F HF) as (a & Ha & Hshape & Hcell).
  unfold read_cell. rewrite Ha, (lookup2_at2 R Cn) by done. by rewrite Hcell.
Qed.





(** ** Ingestion *)

Section ingestion.
Variable sqrt : Qc → Qc.
Variable VecFieldCartesian : string → option Qc → option VecField.
Implicit Types σ : gmap loc (list string).

Lemma load_run σ s path vf :
  VecFieldCartesian path (velocity_fs s) = Some vf →
  load VecFieldCartesian path (World σ s) = (Ret vf, World σ s).
Proof. intros H. unfold load. erewrite bind_run by reflexivity. simpl. by rewrite H. Qed.

Lemma foldl_append_fs (vfs : list VecField) s :
  velocity_fs (foldl (λ s vf, append_cvm (vf_vel_matrix vf) s) s vfs) = velocity_fs s.
Proof. revert s. induction vfs as [|vf vfs IH]; intros s; [done|]. simpl. by rewrite IH. Qed.

Lemma foldl_append_cvl (vfs : list VecField) s :
  constituent_vel_matrix_list (foldl (λ s vf, append_cvm (vf_vel_matrix vf) s) s vfs)
  = constituent_vel_matrix_list s ++ map vf_vel_matrix vfs.
Proof.
  revert s. induction vfs as [|vf vfs IH]; intros s; simpl.
  - by rewrite app_nil_r.
  - rewrite IH. simpl. by rewrite <- app_assoc.
Qed.

(** The loop of lines 104-107 when every sample matches the first. *)
Lemma load_rest_run σ (d : nat * nat) paths vfs s :
  loads VecFieldCartesian (velocity_fs s) paths vfs →
  Forall (λ vf, vf_dims vf = d) vfs →
  for_each paths (λ path,
    next_vf ← load VecFieldCartesian path;
    (if decide (vf_dims next_vf = d) then mret () else raise AssertionError) ;;
    modify (append_cvm (vf_vel_matrix next_vf))) (World σ s)
  = (Ret (), World σ (foldl (λ s vf, append_cvm (vf_vel_matrix vf) s) s vfs)).
Proof.
  intros Hl. revert paths s Hl. induction vfs as [|vf vfs IH]; intros paths s Hl Hd.
  - by inversion Hl.
  - inversion Hl as [|p vf' ps vfs' Hp Hps]; subst.
    apply Forall_cons in Hd as [Hvf Hd]. cbn [for_each foldl].
    erewrite bind_run; [by apply IH|].
    erewrite bind_run by by apply load_run.
    rewrite decide_True by done. by erewrite bind_run by reflexivity.
Qed.

(** The same loop when the sample after [vfs] has other dimensions. *)
Lemma load_rest_mismatch σ (d : nat * nat) paths vfs bad vf_bad more s :
  loads VecFieldCartesian (velocity_fs s) paths vfs →
  Forall (λ vf, vf_dims vf = d) vfs →
  VecFieldCartesian bad (velocity_fs s) = Some vf_bad →
  vf_dims vf_bad ≠ d →
  for_each (paths ++ bad :: more) (λ path,
    next_vf ← load VecFieldCartesian path;
    (if decide (vf_dims next_vf = d) then mret () else raise AssertionError) ;;
    modify (append_cvm (vf_vel_matrix next_vf))) (World σ s)
  = (Raise AssertionError,
     World σ (foldl (λ s vf, append_cvm (vf_vel_matrix vf) s) s vfs)).
Proof.
  intros Hl. revert paths s Hl.
  induction vfs as [|vf vfs IH]; intros paths s Hl Hd Hbad Hne.
  - inversion Hl; subst. cbn [app for_each foldl].
    erewrite bind_raise; [done|].
    erewrite bind_run by by apply load_run.
    rewrite decide_False by done. by erewrite bind_raise by reflexivity.
  - inversion Hl as [|p vf' ps vfs' Hp Hps]; subst.
    apply Forall_cons in Hd as [Hvf Hd]. cbn [app for_each foldl].
    erewrite bind_run; [by apply IH|].
    erewrite bind_run by by apply load_run.
    rewrite decide_True by done. by erewrite bind_run by reflexivity.
Qed.
Lemma retain_cvl first rest s :
  constituent_vel_matrix_list (retain first rest s)
  = constituent_vel_matrix_list s ++ map vf_vel_matrix (first :: rest).
Proof. unfold retain. rewrite foldl_append_cvl. simpl. by rewrite <- app_assoc. Qed.

Lemma retain_grid first rest s :
  dims (retain first rest s) = Some (vf_dims first) ∧
  x_set (retain first rest s) = vf_x_set first ∧
  y_set (retain first rest s) = vf_y_set first ∧
  meshgrid (retain first rest s) = vf_meshgrid first ∧
  vel_matrix (retain first rest s) = vel_matrix s ∧
  min_points (retain first rest s) = min_points s ∧
  v3d_paths (retain first rest s) = v3d_paths s.
Proof.
  unfold retain.
  assert (∀ s0 : instance,
    let s1 := foldl (λ s vf, append_cvm (vf_vel_matrix vf) s) s0 rest in
    dims s1 = dims s0 ∧ x_set s1 = x_set s0 ∧ y_set s1 = y_set s0 ∧
    meshgrid s1 = meshgrid s0 ∧ vel_matrix s1 = vel_matrix s0 ∧
    min_points s1 = min_points s0 ∧ v3d_paths s1 = v3d_paths s0) as H.
  { induction rest as [|vf rest IH]; intros s0; [done|]. simpl. apply (IH (append_cvm _ s0)). }
  exact (H (append_cvm (vf_vel_matrix first) (inherit_grid first s))).
Qed.

(** Lines 96-108: everything [ingest_paths] does before the statistics. *)
Lemma ingest_paths_loaded σ l p ps first rest s :
  σ !! l = Some (p :: ps) →
  loads VecFieldCartesian (velocity_fs s) (p :: ps) (first :: rest) →
  Forall (λ vf, vf_dims vf = vf_dims first) rest →
  ingest_paths sqrt VecFieldCartesian l (World σ s)
  = _average_cartesian sqrt (min_points s) (World (<[l := ps]> σ) (retain first rest s)).
Proof.
  intros Hl Hloads Hdims. inversion Hloads as [|? ? ? ? Hp Hps]; subst.
  unfold ingest_paths.
  erewrite bind_run by (unfold list_pop0; cbn [lists]; by rewrite Hl).
  cbn [self]. erewrite bind_run by by apply load_run.
  erewrite bind_run by reflexivity. erewrite bind_run by reflexivity.
  cbn [lists self].
  erewrite bind_run by (unfold list_read; cbn [lists]; by rewrite lookup_insert_eq).
  erewrite bind_run by by apply (load_rest_run _ (vf_dims first) ps rest).
  erewrite bind_run by reflexivity. cbn [self].
  fold (retain first rest s).
  by destruct (retain_grid first rest s) as (_ & _ & _ & _ & _ & -> & _).
Qed.

(** A successful ingestion. *)
Lemma ingest_paths_run σ l p ps first rest s R Cn :
  σ !! l = Some (p :: ps) →
  loads VecFieldCartesian (velocity_fs s) (p :: ps) (first :: rest) →
  Forall (λ vf, vf_dims vf = (R, Cn)) (first :: rest) →
  Forall (cvm_shape R Cn) (constituent_vel_matrix_list s) →
  Forall (λ vf, cvm_shape R Cn (vf_vel_matrix vf)) (first :: rest) →
  table_ok (vel_matrix s) →
  ingest_paths sqrt VecFieldCartesian l (World σ s)
  = (Ret (),
     World (<[l := ps]> σ)
       (set_vel_matrix
          (stats_table sqrt (min_points s) R Cn
             (constituent_vel_matrix_list s ++ map vf_vel_matrix (first :: rest))
             (vel_matrix s))
          (set_min_points (min_points s) (retain first rest s)))).
Proof.
  intros Hl Hloads Hdims Hold Hnew Ht.
  apply Forall_cons in Hdims as [Hfirst Hdims].
  assert (Forall (λ vf, vf_dims vf = vf_dims first) rest) as Hsame.
  { apply Forall_forall. intros vf Hvf. rewrite Forall_forall in Hdims.
    rewrite Hfirst. by apply Hdims. }
  rewrite (ingest_paths_loaded σ l p ps first rest) by done.
  destruct (retain_grid first rest s) as (Hd & _ & _ & _ & Hvm & _).
  rewrite (average_cartesian_run _ _ _ _ R Cn).
  - by rewrite retain_cvl, Hvm.
  - split_and!.
    + by rewrite Hd, Hfirst.
    + rewrite retain_cvl. by intros [? [=]]%app_eq_nil.
    + rewrite retain_cvl. apply Forall_app. split; [done|].
      by apply Forall_fmap.
    + by rewrite Hvm.
Qed.

(** An ingestion stopped by the assertion of line 106. *)
Lemma ingest_paths_mismatch σ l p good bad more first rest vf_bad s :
  σ !! l = Some (p :: good ++ bad :: more) →
  loads VecFieldCartesian (velocity_fs s) (p :: good) (first :: rest) →
  Forall (λ vf, vf_dims vf = vf_dims first) rest →
  VecFieldCartesian bad (velocity_fs s) = Some vf_bad →
  vf_dims vf_bad ≠ vf_dims first →
  ingest_paths sqrt VecFieldCartesian l (World σ s)
  = (Raise AssertionError,
     World (<[l := good ++ bad :: more]> σ) (retain first rest s)).
Proof.
  intros Hl Hloads Hdims Hbad Hne. inversion Hloads as [|? ? ? ? Hp Hps]; subst.
  unfold ingest_paths.
  erewrite bind_run by (unfold list_pop0; cbn [lists]; by rewrite Hl).
  cbn [self]. erewrite bind_run by by apply load_run.
  erewrite bind_run by reflexivity. erewrite bind_run by reflexivity.
  cbn [lists self].
  erewrite bind_run by (unfold list_read; cbn [lists]; by rewrite lookup_insert_eq).
  by erewrite bind_raise
    by by apply (load_rest_mismatch _ (vf_dims first) good rest bad vf_bad more).
Qed.

(** An ingestion of the empty list stops at line 97. *)
Lemma ingest_paths_empty σ l s :
  σ !! l = Some [] →
  ingest_paths sqrt VecFieldCartesian l (World σ s) = (Raise IndexError, World σ s).
Proof.
  intros Hl. unfold ingest_paths.
  by erewrite bind_raise by (unfold list_pop0; cbn [lists]; by rewrite Hl).
Qed.
End ingestion.

(** ** The constructor and the keys of the table *)

Lemma construct_run sqrt VecFieldCartesian name_tag l min_points velocity_fs σ :
  MeanVecFieldCartesian sqrt VecFieldCartesian name_tag (Some l) min_points velocity_fs σ
  = match ingest_paths sqrt VecFieldCartesian l
            (World σ (new_instance name_tag (Some l) min_points velocity_fs)) with
    | (Ret _, w) => (Ret (self w), lists w)
    | (Raise e, w) => (Raise e, lists w)
    end.
Proof.
  unfold MeanVecFieldCartesian, __init__. by erewrite bind_run by reflexivity.
Qed.

Lemma table_exact_lookup t k :
  table_exact t → is_Some (t !! k) ↔ k ∈ field_keys.
Proof. intros H. by rewrite <- elem_of_dom, H, elem_of_list_to_set. Qed.

Lemma table_exact_intro t :
  (∀ k, is_Some (t !! k) ↔ k ∈ field_keys) → table_exact t.
Proof.
  intros H. apply set_eq. intros k. by rewrite elem_of_dom, H, elem_of_list_to_set.
Qed.

Lemma table_exact_ok t : table_exact t → table_ok t.
Proof. intros H k Hk. by apply table_exact_lookup. Qed.

Lemma table_exact_None t k : table_exact t → k ∉ field_keys → t !! k = None.
Proof.
  intros H Hk. apply eq_None_not_Some. by rewrite table_exact_lookup.
Qed.

Lemma new_table_exact name_tag v3d_paths min_points velocity_fs :
  table_exact (vel_matrix (new_instance name_tag v3d_paths min_points velocity_fs)).
Proof.
  unfold table_exact. cbn [vel_matrix new_instance].
  by rewrite dom_list_to_map_L, <- list_fmap_compose, list_fmap_id.
Qed.

Lemma table_exact_insert t k v :
  k ∈ field_keys → table_exact t → table_exact (<[k := v]> t).
Proof.
  intros Hk Ht. apply table_exact_intro. intros k'.
  destruct (decide (k = k')) as [<-|Hne].
  - rewrite lookup_insert_eq. split; eauto.
  - rewrite lookup_insert_ne by done. by apply table_exact_lookup.
Qed.

(** Neither branch of [__setitem__] adds a key. *)
Lemma setitem_table_exact σ s k v :
  table_exact (vel_matrix s) →
  table_exact (vel_matrix (self (__setitem__ k v (World σ s)).2)).
Proof.
  intros Ht.
  destruct (vel_matrix s !! k) as [x|] eqn:Hk.
  { rewrite setitem_field by eauto. cbn [snd self vel_matrix set_vel_matrix].
    apply table_exact_insert; [|done]. apply (table_exact_lookup _ _ Ht). eauto. }
  destruct (vel_matrix s !! String.rev k) as [x|] eqn:Hr.
  { rewrite setitem_reversed by eauto. cbn [snd self vel_matrix set_vel_matrix].
    apply table_exact_insert; [|done]. apply (table_exact_lookup _ _ Ht). eauto. }
  by rewrite setitem_unknown.
Qed.


(** A construction from paths that all load on one grid. *)
Lemma construct_ok sqrt VecFieldCartesian name_tag mp fs σ l p ps first rest R Cn :
  σ !! l = Some (p :: ps) →
  loads VecFieldCartesian fs (p :: ps) (first :: rest) →
  Forall (λ vf, vf_dims vf = (R, Cn)) (first :: rest) →
  Forall (λ vf, cvm_shape R Cn (vf_vel_matrix vf)) (first :: rest) →
  let s0 := new_instance name_tag (Some l) mp fs in
  MeanVecFieldCartesian sqrt VecFieldCartesian name_tag (Some l) mp fs σ
  = (Ret (set_vel_matrix
            (stats_table sqrt mp R Cn (map vf_vel_matrix (first :: rest)) (vel_matrix s0))
            (set_min_points mp (retain first rest s0))),
     <[l := ps]> σ).
Proof.
  intros Hl Hloads Hdims Hshape s0. rewrite construct_run.
  rewrite (ingest_paths_run _ _ _ _ p ps first rest _ R Cn); try done.
  apply table_exact_ok, new_table_exact.
Qed.




(** ** The accessors on a live table *)

(** The keys of two or three letters read the same backwards, or their
    reversal is not a key. *)
Lemma reversed_not_key k :
  k ∈ field_keys → String.length k = 2%nat ∨ String.length k = 3%nat →
  String.rev (String.rev k) = k ∧ (String.rev k = k ∨ String.rev k ∉ field_keys).
Proof.
  intros Hk Hlen. unfold field_keys in Hk.
  repeat (apply elem_of_cons in Hk as [->|Hk];
          [first [by destruct Hlen
                 | split; [done|]; first [by left | right; compute_done]]|]).
  by apply elem_of_nil in Hk.
Qed.

(** C5.  On a table with exactly the field keys, for every key [k] of two
    or three letters, reading the reversed key returns the very value
    stored under [k], as reading [k] does, and writing through the reversed
    key stores the new value under [k], as writing through [k] does. *)
Theorem C5_reversed_keys σ s k v :
  table_exact (vel_matrix s) →
  k ∈ field_keys →
  String.length k = 2%nat ∨ String.length k = 3%nat →
  ∃ x, vel_matrix s !! k = Some x ∧
    __getitem__ k (World σ s) = (Ret x, World σ s) ∧
    __getitem__ (String.rev k) (World σ s) = (Ret x, World σ s) ∧
    __setitem__ k v (World σ s)
    = (Ret (), World σ (set_vel_matrix (<[k := v]> (vel_matrix s)) s)) ∧
    __setitem__ (String.rev k) v (World σ s)
    = (Ret (), World σ (set_vel_matrix (<[k := v]> (vel_matrix s)) s)).
Proof.
  intros Ht Hk Hlen.
  destruct (proj2 (table_exact_lookup _ k Ht) Hk) as [x Hx].
  destruct (reversed_not_key k Hk Hlen) as [Hrr Hrev].
  exists x. split_and!; [done | by apply getitem_field | | by apply setitem_field |].
  - destruct Hrev as [->|Hrev]; [by apply getitem_field|].
    apply getitem_reversed; [by apply table_exact_None | by rewrite Hrr].
  - destruct Hrev as [->|Hrev]; [by apply setitem_field|].
    rewrite setitem_reversed, Hrr; [done | by apply table_exact_None | by rewrite Hrr].
Qed.

Lemma C5_reversed_keys_witness :
  ∃ x, vel_matrix Demo.built_instance !! "uv"%string = Some x ∧
    __getitem__ "uv" (World ∅ Demo.built_instance) = (Ret x, World ∅ Demo.built_instance) ∧
    __getitem__ "vu" (World ∅ Demo.built_instance) = (Ret x, World ∅ Demo.built_instance) ∧
    __setitem__ "uv" VNone (World ∅ Demo.built_instance)
    = (Ret (), World ∅ (set_vel_matrix (<["uv"%string := VNone]> (vel_matrix Demo.built_instance))
                          Demo.built_instance)) ∧
    __setitem__ "vu" VNone (World ∅ Demo.built_instance)
    = (Ret (), World ∅ (set_vel_matrix (<["uv"%string := VNone]> (vel_matrix Demo.built_instance))
                          Demo.built_instance)).
Proof.
  apply (C5_reversed_keys ∅ Demo.built_instance "uv" VNone).
  - vm_compute. reflexivity.
  - compute_done.
  - left. reflexivity.
Defined.

(** C6.  Writing through a key that is not in the table, and whose reversal
    is not either, raises the error of line 84 and leaves the whole world,
    the field table included, as it was; ["zz"] is such a key on every table
    with exactly the field keys. *)
Theorem C6_invalid_key σ s k v :
  table_exact (vel_matrix s) →
  k ∉ field_keys → String.rev k ∉ field_keys →
  __setitem__ k v (World σ s) = (Raise AttributeError, World σ s) ∧
  __setitem__ "zz" v (World σ s) = (Raise AttributeError, World σ s).
Proof.
  intros Ht Hk Hr. split.
  - apply setitem_unknown; by apply table_exact_None.
  - apply setitem_unknown; apply table_exact_None; try done; compute_done.
Qed.

Lemma C6_invalid_key_witness :
  __setitem__ "x_mesh" (VArr []) (World ∅ Demo.built_instance)
  = (Raise AttributeError, World ∅ Demo.built_instance) ∧
  __setitem__ "zz" (VArr []) (World ∅ Demo.built_instance)
  = (Raise AttributeError, World ∅ Demo.built_instance).
Proof.
  apply (C6_invalid_key ∅ Demo.built_instance "x_mesh" (VArr [])).
  - vm_compute. reflexivity.
  - compute_done.
  - compute_done.
Defined.

(** What a read can return: [None], an entry of the field table, or an
    entry of the mesh table; the world is left as it was. *)
Lemma getitem_result σ s k :
  ∃ v, __getitem__ k (World σ s) = (Ret v, World σ s) ∧
    (v = VNone ∨ (∃ k', vel_matrix s !! k' = Some v) ∨ (∃ k', meshgrid s !! k' = Some v)).
Proof.
  destruct (vel_matrix s !! k) as [v|] eqn:Hk.
  { exists v. split; [by apply getitem_field | eauto]. }
  destruct (vel_matrix s !! String.rev k) as [v|] eqn:Hr.
  { exists v. split; [by apply getitem_reversed | eauto]. }
  destruct (meshgrid s !! k) as [v|] eqn:Hm.
  { exists v. split; [by apply getitem_mesh | eauto]. }
  exists VNone. split; [by apply getitem_unknown | eauto].
Qed.




(** ** Failing and mutating ingestions *)

(** C4 (as amended).  When the samples [good] after the first one match its
    dimensions and the next sample does not, [ingest_paths] raises the
    assertion error of line 106 before any statistics are computed: the
    field table and [min_points] are what they were.  The ingestion stops
    there, but the instance keeps what it had taken in: the grid of the
    first sample, and the first sample and the matching ones at the end of
    [constituent_vel_matrix_list].  A construction that ingests this list
    raises the same error and hands no instance to its caller. *)
Theorem C4_dimension_mismatch sqrt VecFieldCartesian σ l p good bad more first rest vf_bad s :
  σ !! l = Some (p :: good ++ bad :: more) →
  loads VecFieldCartesian (velocity_fs s) (p :: good) (first :: rest) →
  Forall (λ vf, vf_dims vf = vf_dims first) rest →
  VecFieldCartesian bad (velocity_fs s) = Some vf_bad →
  vf_dims vf_bad ≠ vf_dims first →
  (∃ s', ingest_paths sqrt VecFieldCartesian l (World σ s)
         = (Raise AssertionError, World (<[l := good ++ bad :: more]> σ) s') ∧
     vel_matrix s' = vel_matrix s ∧
     min_points s' = min_points s ∧
     dims s' = Some (vf_dims first) ∧
     constituent_vel_matrix_list s'
     = constituent_vel_matrix_list s ++ map vf_vel_matrix (first :: rest)) ∧
  (∀ name_tag mp,
     MeanVecFieldCartesian sqrt VecFieldCartesian name_tag (Some l) mp (velocity_fs s) σ
     = (Raise AssertionError, <[l := good ++ bad :: more]> σ)).
Proof.
  intros Hl Hloads Hdims Hbad Hne. split.
  - exists (retain first rest s).
    split; [by eapply ingest_paths_mismatch|].
    destruct (retain_grid first rest s) as (Hd & _ & _ & _ & Hvm & Hmp & _).
    split_and!; [done..|]. apply retain_cvl.
  - intros name_tag mp. rewrite construct_run.
    by erewrite ingest_paths_mismatch.
Qed.

Lemma C4_dimension_mismatch_witness :
  (∃ s', ingest_paths Demo.qsqrt Demo.loader 0%nat (World Demo.paths_mismatch Demo.fresh)
         = (Raise AssertionError,
            World (<[0%nat := ["b"; "wide"; "c"]%string]> Demo.paths_mismatch) s') ∧
     vel_matrix s' = vel_matrix Demo.fresh ∧
     min_points s' = min_points Demo.fresh ∧
     dims s' = Some (2, 2)%nat ∧
     constituent_vel_matrix_list s'
     = [vf_vel_matrix Demo.sample_a; vf_vel_matrix Demo.sample_b]%list) ∧
  (∀ name_tag mp,
     MeanVecFieldCartesian Demo.qsqrt Demo.loader name_tag (Some 0%nat) mp None
       Demo.paths_mismatch
     = (Raise AssertionError, <[0%nat := ["b"; "wide"; "c"]%string]> Demo.paths_mismatch)).
Proof.
  apply (C4_dimension_mismatch Demo.qsqrt Demo.loader Demo.paths_mismatch 0%nat "a"
           ["b"%string]%list "wide" ["c"%string]%list Demo.sample_a [Demo.sample_b]%list
           Demo.sample_wide Demo.fresh).
  - reflexivity.
  - repeat constructor.
  - repeat constructor.
  - reflexivity.
  - vm_compute. discriminate.
Defined.

(** C4, as stated, fails in its last part: a fresh instance that ingests
    the list [["a", "wide"]] raises the assertion error, and afterwards
    holds the first sample in [constituent_vel_matrix_list] and the grid of
    the first sample in [dims]. *)
Lemma C4_counterexample :
  ∃ w, ingest_paths Demo.qsqrt Demo.loader 0%nat
         (World {[ 0%nat := ["a"; "wide"]%string ]} (new_instance None None 20 None))
       = (Raise AssertionError, w) ∧
    constituent_vel_matrix_list (self w) = [vf_vel_matrix Demo.sample_a]%list ∧
    constituent_vel_matrix_list (self w) ≠ []%list ∧
    dims (self w) = Some (2, 2)%nat.
Proof.
  eexists. split; [vm_compute; reflexivity|].
  split_and!; [vm_compute; reflexivity | discriminate | vm_compute; reflexivity].
Qed.

(** C7.  Ingesting an empty list raises the index error of line 97 (the
    [pop] from an empty list) before anything is assigned: the world is
    unchanged.  A construction from an empty list raises the same error,
    hands no instance to its caller, and the instance under construction
    has no grid dimensions and no field other than [None]. *)
Theorem C7_empty_source_list sqrt VecFieldCartesian σ l s name_tag mp fs :
  σ !! l = Some [] →
  ingest_paths sqrt VecFieldCartesian l (World σ s) = (Raise IndexError, World σ s) ∧
  MeanVecFieldCartesian sqrt VecFieldCartesian name_tag (Some l) mp fs σ
  = (Raise IndexError, σ) ∧
  ∃ s0, __init__ sqrt VecFieldCartesian name_tag (Some l) mp fs (World σ s)
        = (Raise IndexError, World σ s0) ∧
    dims s0 = None ∧ x_set s0 = VNone ∧ y_set s0 = VNone ∧
    constituent_vel_matrix_list s0 = [] ∧
    ∀ k, k ∈ field_keys → vel_matrix s0 !! k = Some VNone.
Proof.
  intros Hl. split_and!.
  - by apply ingest_paths_empty.
  - rewrite construct_run. by rewrite ingest_paths_empty.
  - exists (new_instance name_tag (Some l) mp fs). split.
    + unfold __init__. erewrite bind_run by reflexivity.
      cbn [lists self]. by apply ingest_paths_empty.
    + split_and!; try done. intros k Hk. cbn [vel_matrix new_instance].
      unfold field_keys in Hk.
      repeat (apply elem_of_cons in Hk as [->|Hk]; [done|]).
      by apply elem_of_nil in Hk.
Qed.

Lemma C7_empty_source_list_witness :
  ingest_paths Demo.qsqrt Demo.loader 0%nat (World Demo.paths_empty Demo.fresh)
  = (Raise IndexError, World Demo.paths_empty Demo.fresh) ∧
  MeanVecFieldCartesian Demo.qsqrt Demo.loader None (Some 0%nat) 20 None Demo.paths_empty
  = (Raise IndexError, Demo.paths_empty) ∧
  ∃ s0, __init__ Demo.qsqrt Demo.loader None (Some 0%nat) 20 None
          (World Demo.paths_empty Demo.fresh)
        = (Raise IndexError, World Demo.paths_empty s0) ∧
    dims s0 = None ∧ x_set s0 = VNone ∧ y_set s0 = VNone ∧
    constituent_vel_matrix_list s0 = []%list ∧
    ∀ k, k ∈ field_keys → vel_matrix s0 !! k = Some VNone.
Proof.
  apply (C7_empty_source_list Demo.qsqrt Demo.loader Demo.paths_empty 0%nat Demo.fresh
           None 20 None).
  reflexivity.
Defined.

(** ** Reordering the samples *)

Lemma valid_perm l l' : l ≡ₚ l' → Ma.valid l ≡ₚ Ma.valid l'.
Proof. intros H. unfold Ma.valid. by rewrite H. Qed.

Lemma count_perm l l' : l ≡ₚ l' → Ma.count l = Ma.count l'.
Proof. intros H. unfold Ma.count. by rewrite (valid_perm _ _ H). Qed.

Lemma series_perm f cvl cvl' r c :
  cvl ≡ₚ cvl' → series f cvl r c ≡ₚ series f cvl' r c.
Proof. intros H. unfold series. by apply Permutation_map. Qed.

Section on_grid.
Variable VecFieldCartesian : string → option Qc → option VecField.
Variables (fs : option Qc) (R Cn : nat).

Lemma on_grid_loads paths :
  Forall (on_grid VecFieldCartesian fs R Cn) paths →
  let vfs := omap (λ p, VecFieldCartesian p fs) paths in
  loads VecFieldCartesian fs paths vfs ∧
  Forall (λ vf, vf_dims vf = (R, Cn)) vfs ∧
  Forall (λ vf, cvm_shape R Cn (vf_vel_matrix vf)) vfs.
Proof.
  induction 1 as [|p paths (vf & Hvf & Hd & Hs) _ (IH1 & IH2 & IH3)]; simpl.
  - split_and!; constructor.
  - rewrite Hvf. simpl. split_and!; by constructor.
Qed.
End on_grid.

(** The counts of a cell, and so the field [num], do not depend on the
    order of the samples; no sum of values is involved. *)
Lemma num_array_perm sqrt mp R Cn cvl cvl' :
  cvl ≡ₚ cvl' →
  stat_array sqrt mp R Cn cvl' (λ _ mp us _ _, Cell.num mp us)
  = stat_array sqrt mp R Cn cvl (λ _ mp us _ _, Cell.num mp us).
Proof.
  intros Hp. unfold stat_array. apply tab_ext. intros r c _ _.
  unfold Cell.num, Cell.mpm.
  by rewrite (count_perm _ _ (series_perm cU _ _ r c Hp)).
Qed.

(** Reading a cell of a table of statistics. *)
Lemma read_cell_stats sqrt mp R Cn cvl t s k F r c :
  vel_matrix s = stats_table sqrt mp R Cn cvl t →
  (k, F) ∈ stats_fields → (r < R)%nat → (c < Cn)%nat →
  read_cell s k r c
  = Some (F sqrt mp (series cU cvl r c) (series cV cvl r c) (series cW cvl r c)).
Proof.
  intros Hs HF Hr Hc. unfold read_cell.
  rewrite Hs, (stats_table_lookup _ _ _ _ _ _ k F HF). unfold stat_array.
  rewrite (lookup2_at2 R Cn) by (done || apply shape2_tab). by rewrite at2_tab.
Qed.

(** C8 (as amended).  Two constructions from path lists that are
    permutations of each other, every path loading as a sample on one and
    the same grid, both succeed and retain the same samples up to their
    order; they leave the same field [num], counts and mask, so that
    reading [num] through the accessor gives the same array; and at every
    cell that [num] masks, every field is masked in both instances.
    Nothing is claimed of the values of the other fields, which are sums
    of doubles taken in the order of the samples. *)
Theorem C8_order_independent sqrt VecFieldCartesian nt1 nt2 mp fs σ1 σ2 l1 l2
    paths1 paths2 R Cn :
  σ1 !! l1 = Some paths1 →
  σ2 !! l2 = Some paths2 →
  paths1 ≡ₚ paths2 →
  paths1 ≠ [] →
  Forall (on_grid VecFieldCartesian fs R Cn) paths1 →
  ∃ s1 s2 σ1' σ2',
    MeanVecFieldCartesian sqrt VecFieldCartesian nt1 (Some l1) mp fs σ1 = (Ret s1, σ1') ∧
    MeanVecFieldCartesian sqrt VecFieldCartesian nt2 (Some l2) mp fs σ2 = (Ret s2, σ2') ∧
    constituent_vel_matrix_list s1 ≡ₚ constituent_vel_matrix_list s2 ∧
    (∃ a, __getitem__ "num" (World σ1' s1) = (Ret (VArr a), World σ1' s1) ∧
          __getitem__ "num" (World σ2' s2) = (Ret (VArr a), World σ2' s2)) ∧
    ∀ k r c, k ∈ field_keys → (r < R)%nat → (c < Cn)%nat →
      read_cell s1 "num" r c = read_cell s2 "num" r c ∧
      (read_cell s1 "num" r c = Some None →
       read_cell s1 k r c = Some None ∧ read_cell s2 k r c = Some None).
Proof.
  intros H1 H2 Hp Hne Hgrid1.
  assert (Forall (on_grid VecFieldCartesian fs R Cn) paths2) as Hgrid2 by by rewrite <- Hp.
  destruct (on_grid_loads _ _ _ _ _ Hgrid1) as (Hl1 & Hd1 & Hs1).
  destruct (on_grid_loads _ _ _ _ _ Hgrid2) as (Hl2 & Hd2 & Hs2).
  assert (omap (λ p, VecFieldCartesian p fs) paths1
          ≡ₚ omap (λ p, VecFieldCartesian p fs) paths2) as Hvfs by by rewrite Hp.
  destruct paths1 as [|p1 ps1]; [done|].
  destruct paths2 as [|p2 ps2]; [by apply Permutation_nil_r in Hp|].
  destruct (omap _ (p1 :: ps1)) as [|first1 rest1] eqn:E1; [by inversion Hl1|].
  destruct (omap _ (p2 :: ps2)) as [|first2 rest2] eqn:E2; [by inversion Hl2|].
  set (cvl1 := map vf_vel_matrix (first1 :: rest1)).
  set (cvl2 := map vf_vel_matrix (first2 :: rest2)).
  assert (cvl1 ≡ₚ cvl2) as Hcvl by by apply Permutation_map.
  set (num := (λ _ mp us _ _, Cell.num mp us) : stat).
  assert (("num"%string, num) ∈ stats_fields) as Hnum by apply list_elem_of_here.
  eexists _, _, _, _.
  split; [by eapply construct_ok|]. split; [by eapply construct_ok|].
  split_and!.
  - cbn [constituent_vel_matrix_list set_vel_matrix set_min_points].
    by rewrite !retain_cvl.
  - exists (stat_array sqrt mp R Cn cvl1 num).
    split; apply getitem_field; cbn [vel_matrix set_vel_matrix].
    + by apply stats_table_lookup.
    + unfold num. rewrite (num_array_perm sqrt mp R Cn cvl2 cvl1) by done.
      by apply stats_table_lookup.
  - intros k r c [F HF]%field_keys_stats Hr Hc.
    match goal with
    | |- read_cell ?a _ _ _ = read_cell ?b _ _ _ ∧ _ => set (s1 := a); set (s2 := b)
    end.
    rewrite (read_cell_stats sqrt mp R Cn cvl1 _ s1 "num" num r c eq_refl Hnum Hr Hc).
    rewrite (read_cell_stats sqrt mp R Cn cvl2 _ s2 "num" num r c eq_refl Hnum Hr Hc).
    rewrite (read_cell_stats sqrt mp R Cn cvl1 _ s1 k F r c eq_refl HF Hr Hc).
    rewrite (read_cell_stats sqrt mp R Cn cvl2 _ s2 k F r c eq_refl HF Hr Hc).
    pose proof (count_perm _ _ (series_perm cU _ _ r c Hcvl)) as Hcount.
    split.
    + unfold num, Cell.num, Cell.mpm. by rewrite Hcount.
    + unfold num at 1. unfold Cell.num, Ma.masked_array.
      destruct (Cell.mpm mp (series cU cvl1 r c)) eqn:Hm; [|done]. intros _.
      apply mpm_true in Hm.
      split; f_equal; eapply low_count_masked; try done. by rewrite <- Hcount.
Qed.

Lemma C8_order_independent_witness :
  ∃ s1 s2 σ1' σ2',
    MeanVecFieldCartesian Demo.qsqrt Demo.loader None (Some 0%nat) 2 None
      Demo.paths_two_orders = (Ret s1, σ1') ∧
    MeanVecFieldCartesian Demo.qsqrt Demo.loader None (Some 1%nat) 2 None
      Demo.paths_two_orders = (Ret s2, σ2') ∧
    constituent_vel_matrix_list s1 ≡ₚ constituent_vel_matrix_list s2 ∧
    (∃ a, __getitem__ "num" (World σ1' s1) = (Ret (VArr a), World σ1' s1) ∧
          __getitem__ "num" (World σ2' s2) = (Ret (VArr a), World σ2' s2)) ∧
    ∀ k r c, k ∈ field_keys → (r < 2)%nat → (c < 2)%nat →
      read_cell s1 "num" r c = read_cell s2 "num" r c ∧
      (read_cell s1 "num" r c = Some None →
       read_cell s1 k r c = Some None ∧ read_cell s2 k r c = Some None).
Proof.
  apply (C8_order_independent Demo.qsqrt Demo.loader None None 2 None
           Demo.paths_two_orders Demo.paths_two_orders 0%nat 1%nat
           ["a"; "b"; "c"]%string ["c"; "a"; "b"]%string 2%nat 2%nat).
  - vm_compute. reflexivity.
  - vm_compute. reflexivity.
  - compute_done.
  - discriminate.
  - repeat econstructor.
Defined.

(** C8, as stated, fails on doubles for the values: the series 1, 10^16,
    -10^16 and the series 10^16, -10^16, 1 are permutations of each other,
    and the mean of line 146 is 0 for one and 1/3 for the other, whether
    the sum adds the entries one after the other or adds the accumulated
    rest to the first entry. *)
Lemma C8_counterexample :
  DemoF64.series_1 ≡ₚ DemoF64.series_2 ∧
  F64.mean F64.total DemoF64.series_1 = Some PrimFloat.zero ∧
  F64.mean F64.total DemoF64.series_2 = Some DemoF64.third ∧
  F64.mean F64.total_from_first DemoF64.series_1 = Some DemoF64.third ∧
  F64.mean F64.total_from_first DemoF64.series_2 = Some PrimFloat.zero ∧
  F64.mean F64.total DemoF64.series_1 ≠ F64.mean F64.total DemoF64.series_2 ∧
  F64.mean F64.total_from_first DemoF64.series_1
  ≠ F64.mean F64.total_from_first DemoF64.series_2.
Proof.
  split.
  { unfold DemoF64.series_1, DemoF64.series_2.
    apply (Permutation_cons_append [_; _]%list). }
  do 4 (split; [vm_compute; reflexivity|]).
  split; intros H;
    apply (f_equal (λ c, match c with
                         | Some x => PrimFloat.eqb x PrimFloat.zero
                         | None => false
                         end)) in H;
    vm_compute in H; discriminate.
Qed.

(** C10.  A successful [ingest_paths] removes the first path from the list
    it was given: the caller's list, at its location in the store, is left
    with the remaining paths.  The instance built from that list stores the
    same location in [v3d_paths], so its stored paths no longer contain the
    first one, while [constituent_vel_matrix_list] holds the sample of
    every path, the first one included. *)
Theorem C10_argument_mutated sqrt VecFieldCartesian name_tag mp fs σ l p ps first rest R Cn :
  σ !! l = Some (p :: ps) →
  loads VecFieldCartesian fs (p :: ps) (first :: rest) →
  Forall (λ vf, vf_dims vf = (R, Cn)) (first :: rest) →
  Forall (λ vf, cvm_shape R Cn (vf_vel_matrix vf)) (first :: rest) →
  (∀ s0, velocity_fs s0 = fs →
     Forall (cvm_shape R Cn) (constituent_vel_matrix_list s0) →
     table_ok (vel_matrix s0) →
     ∃ w, ingest_paths sqrt VecFieldCartesian l (World σ s0) = (Ret (), w) ∧
       lists w !! l = Some ps ∧
       (∀ l', l' ≠ l → lists w !! l' = σ !! l') ∧
       constituent_vel_matrix_list (self w)
       = constituent_vel_matrix_list s0 ++ map vf_vel_matrix (first :: rest)) ∧
  (∃ s σ', MeanVecFieldCartesian sqrt VecFieldCartesian name_tag (Some l) mp fs σ
           = (Ret s, σ') ∧
     v3d_paths s = Some l ∧
     σ' !! l = Some ps ∧
     constituent_vel_matrix_list s = map vf_vel_matrix (first :: rest)).
Proof.
  intros Hl Hloads Hdims Hshape. split.
  - intros s0 <- Hold Ht. eexists. split; [by eapply ingest_paths_run|].
    cbn [lists self]. split_and!.
    + apply lookup_insert_eq.
    + intros l' Hne. by apply lookup_insert_ne.
    + cbn [constituent_vel_matrix_list set_vel_matrix set_min_points].
      apply retain_cvl.
  - eexists _, _. split; [by eapply construct_ok|].
    cbn [v3d_paths constituent_vel_matrix_list set_vel_matrix set_min_points].
    set (s0 := new_instance name_tag (Some l) mp fs).
    destruct (retain_grid first rest s0) as (_ & _ & _ & _ & _ & _ & Hv).
    split_and!; [done | apply lookup_insert_eq | by rewrite retain_cvl].
Qed.

Lemma C10_argument_mutated_witness :
  ∃ s σ', Demo.built = (Ret s, σ') ∧
    v3d_paths s = Some 0%nat ∧
    σ' !! 0%nat = Some ["b"; "c"]%string ∧
    constituent_vel_matrix_list s
    = map vf_vel_matrix [Demo.sample_a; Demo.sample_b; Demo.sample_c]%list.
Proof.
  apply (C10_argument_mutated Demo.qsqrt Demo.loader (Some "demo"%string) 2 None
           Demo.paths_abc 0%nat "a" ["b"; "c"]%string Demo.sample_a
           [Demo.sample_b; Demo.sample_c]%list 2%nat 2%nat).
  - reflexivity.
  - repeat constructor.
  - repeat constructor.
  - repeat constructor.
Defined.

(** * Further properties of the aggregator *)

(** ** Arithmetic on one cell *)

Lemma of_nat_pos n : (0 < n)%nat → 0 < Ma.of_nat n.
Proof.
  intros H. unfold Ma.of_nat. rewrite <- Z2Qc_inj_0.
  apply (proj1 (Z2Qc_inj_lt 0 (Z.of_nat n))). lia.
Qed.

Lemma of_nat_nonneg n : 0 ≤ Ma.of_nat n.
Proof.
  unfold Ma.of_nat. rewrite <- Z2Qc_inj_0.
  apply (proj1 (Z2Qc_inj_le 0 (Z.of_nat n))). lia.
Qed.

Lemma Qc_square_nonneg (x : Qc) : 0 ≤ x * x.
Proof.
  destruct (Qclt_le_dec x 0) as [Hx|Hx].
  - replace (x * x) with ((- x) * (- x)) by ring.
    assert (0 ≤ - x) as Hn.
    { apply Qclt_le_weak in Hx. apply Qcopp_le_compat in Hx.
      by replace (- 0) with 0 in Hx by ring. }
    pose proof (Qcmult_le_compat_r 0 (- x) (- x) Hn Hn) as H.
    by rewrite Qcmult_0_l in H.
  - pose proof (Qcmult_le_compat_r 0 x x Hx Hx) as H.
    by rewrite Qcmult_0_l in H.
Qed.

Lemma Qc_add_nonneg (x y : Qc) : 0 ≤ x → 0 ≤ y → 0 ≤ x + y.
Proof.
  intros Hx Hy. pose proof (Qcplus_le_compat 0 x 0 y Hx Hy) as H.
  by rewrite Qcplus_0_l in H.
Qed.

Lemma Qc_div_nonneg (x y : Qc) : 0 ≤ x → 0 < y → 0 ≤ x / y.
Proof.
  intros Hx Hy. apply (Qcmult_lt_0_le_reg_r _ _ y Hy).
  rewrite Qcmult_0_l. replace (x / y * y) with x; [done|].
  field. by apply Qclt_not_eq in Hy.
Qed.

Lemma total_nonneg l : Forall (λ x, 0 ≤ x) l → 0 ≤ Ma.total l.
Proof.
  unfold Ma.total. induction 1 as [|x l Hx _ IH]; simpl.
  - apply Qcle_refl.
  - by apply Qc_add_nonneg.
Qed.

Lemma mean_nonneg xs x :
  Forall (λ y, 0 ≤ y) (Ma.valid xs) → Ma.mean xs = Some x → 0 ≤ x.
Proof.
  intros Hxs. unfold Ma.mean. case_decide as Hc; [done|]. intros [= <-].
  apply Qc_div_nonneg; [by apply total_nonneg | apply of_nat_pos; clear -Hc; lia].
Qed.

Lemma valid_abs xs : Ma.valid (map Ma.abs xs) = map Qcabs (Ma.valid xs).
Proof.
  unfold Ma.valid. induction xs as [|[x|] xs IH]; simpl; [done | by f_equal | done].
Qed.

Lemma count_le_length xs : (Ma.count xs ≤ length xs)%nat.
Proof.
  unfold Ma.count, Ma.valid. induction xs as [|[x|] xs IH]; simpl.
  - done.
  - apply le_n_S, IH.
  - apply Nat.le_le_succ_r, IH.
Qed.

Ltac in_fields :=
  unfold stats_fields;
  repeat first [apply list_elem_of_here | apply list_elem_of_further].

Section more_cell_moments.
Variable mp : Z.
Variables us xs ys : list Ma.cell.
Hypothesis Hm : (mp < Z.of_nat (Ma.count us))%Z.
Hypothesis Hxs : (0 < Ma.count xs)%nat.

(** The mean absolute fluctuation is the mean absolute deviation. *)
Lemma abs_moment_valued :
  Cell.mean_of mp us (map Ma.abs (Cell.fluct xs (Cell.mean_of mp us xs)))
  = Some (mean_abs_deviation (Ma.valid xs)).
Proof.
  rewrite (mean_of_valued mp us xs) by done.
  unfold Cell.mean_of. rewrite (proj2 (mpm_false mp us) Hm). simpl.
  unfold Ma.mean, Ma.count.
  rewrite valid_abs, valid_fluct, !length_map, map_map.
  by rewrite decide_False by (unfold Ma.count in Hxs; lia).
Qed.


End more_cell_moments.

(** ** Relations between the stored fields *)







(** ** Signs *)

Lemma mean_of_nonneg mp us xs x :
  Forall (λ y, 0 ≤ y) (Ma.valid xs) → Cell.mean_of mp us xs = Some x → 0 ≤ x.
Proof.
  intros Hxs. unfold Cell.mean_of, Ma.masked_array.
  destruct (Cell.mpm mp us); [done|]. by apply mean_nonneg.
Qed.

Lemma abs_series_nonneg xs : Forall (λ y, 0 ≤ y) (Ma.valid (map Ma.abs xs)).
Proof.
  rewrite valid_abs. apply Forall_forall. intros y Hy.
  apply list_elem_of_In, in_map_iff in Hy as (z & <- & _). apply Qcabs_nonneg.
Qed.

Lemma square_series_nonneg xs : Forall (λ y, 0 ≤ y) (Ma.valid (zip_with Ma.mul xs xs)).
Proof.
  rewrite valid_mul_self. apply Forall_forall. intros y Hy.
  apply list_elem_of_In, in_map_iff in Hy as (z & <- & _). apply Qc_square_nonneg.
Qed.

Lemma Qc_two_pos : (0 : Qc) < 2.
Proof. rewrite <- Z2Qc_inj_0, <- Z2Qc_inj_2. by apply (proj1 (Z2Qc_inj_lt 0 2)). Qed.

Lemma cte_nonneg mp us vs ws x : Cell.cte mp us vs ws = Some x → 0 ≤ x.
Proof.
  unfold Cell.cte.
  destruct (Cell.uu mp us) as [a|] eqn:Ha; [|done].
  destruct (Cell.vv mp us vs) as [b|] eqn:Hb; [|done].
  destruct (Cell.ww mp us ws) as [d|] eqn:Hd; [|done].
  simpl. intros [= <-].
  apply mean_of_nonneg in Ha; [|apply square_series_nonneg].
  apply mean_of_nonneg in Hb; [|apply square_series_nonneg].
  apply mean_of_nonneg in Hd; [|apply square_series_nonneg].
  apply Qc_div_nonneg; [|apply Qc_two_pos].
  by repeat apply Qc_add_nonneg.
Qed.

(** X4.  After an aggregation pass, an unmasked cell of [num], [u], [v],
    [w], [uu], [vv], [ww] or [cte] never holds a negative number. *)
Theorem X4_nonnegative_fields sqrt mp σ s R Cn :
  ready R Cn s →
  ∃ s', _average_cartesian sqrt mp (World σ s) = (Ret (), World σ s') ∧
    ∀ k r c x, k ∈ nonneg_keys → (r < R)%nat → (c < Cn)%nat →
      read_cell s' k r c = Some (Some x) → 0 ≤ x.
Proof.
  intros Hready.
  destruct (average_cartesian_read sqrt mp σ s R Cn Hready) as (s' & Hrun & Hread).
  exists s'. split; [done|]. intros k r c x Hk Hr Hc.
  unfold nonneg_keys in Hk.
  repeat (apply elem_of_cons in Hk as [->|Hk];
          [(erewrite Hread; [|in_fields|done..]); cbv beta; intros [= Hx]; revert Hx;
           first [ apply cte_nonneg
                 | unfold Cell.num, Ma.masked_array;
                   destruct (Cell.mpm _ _); [done|]; intros [= <-]; apply of_nat_nonneg
                 | apply mean_of_nonneg;
                   first [apply abs_series_nonneg | apply square_series_nonneg] ]|]).
  by apply elem_of_nil in Hk.
Qed.

Lemma X4_nonnegative_fields_witness :
  ∃ s',
    _average_cartesian Demo.qsqrt 2 (World ∅ Demo.built_instance) = (Ret (), World ∅ s') ∧
    ∀ x, read_cell s' "cte" 0 1 = Some (Some x) → 0 ≤ x.
Proof.
  destruct (X4_nonnegative_fields Demo.qsqrt 2 ∅ Demo.built_instance 2 2)
    as (s' & Hrun & Hcells).
  { apply readyb_ready. vm_compute. reflexivity. }
  exists s'. split; [done|]. intros x.
  apply (Hcells "cte" 0 1 x)%nat%string; [compute_done | lia | lia].
Defined.

(** ** Passes one after the other *)

(** A pass overwrites every field an earlier pass wrote. *)
Lemma stats_table_overwrite sqrt mp mp' R Cn cvl cvl' t :
  stats_table sqrt mp R Cn cvl (stats_table sqrt mp' R Cn cvl' t)
  = stats_table sqrt mp R Cn cvl t.
Proof.
  apply map_eq. intros k. destruct (decide (k ∈ field_keys)) as [Hk|Hk].
  - apply field_keys_stats in Hk as [F HF]. by rewrite !(stats_table_lookup _ _ _ _ _ _ k F).
  - by rewrite !stats_table_other.
Qed.

(** X5.  A second aggregation pass replaces the result of the first: two
    passes with the thresholds [mp1] and then [mp2] leave the world one
    pass with [mp2] leaves.  With [mp1 = mp2], re-running the aggregation
    changes nothing. *)
Theorem X5_reaggregation sqrt mp1 mp2 σ s R Cn :
  ready R Cn s →
  ∃ s1 s2,
    _average_cartesian sqrt mp1 (World σ s) = (Ret (), World σ s1) ∧
    _average_cartesian sqrt mp2 (World σ s1) = (Ret (), World σ s2) ∧
    _average_cartesian sqrt mp2 (World σ s) = (Ret (), World σ s2).
Proof.
  intros Hready.
  destruct (average_cartesian_cells sqrt mp1 σ s R Cn Hready)
    as (s1 & Hrun1 & Hcvl & Hready1 & _).
  pose proof Hrun1 as Hrun1'.
  rewrite (average_cartesian_run _ _ _ _ R Cn) in Hrun1' by done.
  injection Hrun1' as Hs1.
  eexists s1, _. split; [done|]. split; [by apply average_cartesian_run|].
  rewrite (average_cartesian_run _ _ _ _ R Cn) by done.
  rewrite <- Hs1. cbn [constituent_vel_matrix_list vel_matrix set_vel_matrix set_min_points].
  rewrite stats_table_overwrite. reflexivity.
Qed.

Lemma X5_reaggregation_witness :
  ∃ s1 s2,
    _average_cartesian Demo.qsqrt 5 (World ∅ Demo.built_instance) = (Ret (), World ∅ s1) ∧
    _average_cartesian Demo.qsqrt 2 (World ∅ s1) = (Ret (), World ∅ s2) ∧
    _average_cartesian Demo.qsqrt 2 (World ∅ Demo.built_instance) = (Ret (), World ∅ s2).
Proof.
  apply (X5_reaggregation Demo.qsqrt 5 2 ∅ Demo.built_instance 2 2).
  apply readyb_ready. vm_compute. reflexivity.
Defined.

(** X6.  An aggregation pass touches nothing but [min_points] and the
    seventeen entries of the field table: the caller's lists, the retained
    samples, the grid, the axes, the mesh table, the stored paths, the tag
    and the free-stream velocity are what they were; no key is added to or
    removed from the field table, and an entry under any other key is
    kept. *)
Theorem X6_aggregation_frame sqrt mp σ s R Cn :
  ready R Cn s →
  ∃ s', _average_cartesian sqrt mp (World σ s) = (Ret (), World σ s') ∧
    min_points s' = mp ∧
    constituent_vel_matrix_list s' = constituent_vel_matrix_list s ∧
    dims s' = dims s ∧ x_set s' = x_set s ∧ y_set s' = y_set s ∧
    meshgrid s' = meshgrid s ∧ v3d_paths s' = v3d_paths s ∧
    name_tag s' = name_tag s ∧ velocity_fs s' = velocity_fs s ∧
    dom (vel_matrix s') = dom (vel_matrix s) ∧
    ∀ k, k ∉ field_keys → vel_matrix s' !! k = vel_matrix s !! k.
Proof.
  intros Hready. eexists. split; [by apply average_cartesian_run|].
  split_and!; try done.
  - cbn [vel_matrix set_vel_matrix]. apply set_eq. intros k.
    rewrite !elem_of_dom. destruct (decide (k ∈ field_keys)) as [Hk|Hk].
    + split; intros _; [by apply Hready | by apply stats_table_ok].
    + by rewrite stats_table_other.
  - intros k Hk. cbn [vel_matrix set_vel_matrix]. by apply stats_table_other.
Qed.

Lemma X6_aggregation_frame_witness :
  ∃ s', _average_cartesian Demo.qsqrt 7 (World Demo.paths_abc Demo.built_instance)
        = (Ret (), World Demo.paths_abc s') ∧
    min_points s' = 7%Z ∧
    constituent_vel_matrix_list s' = constituent_vel_matrix_list Demo.built_instance ∧
    dims s' = dims Demo.built_instance.
Proof.
  destruct (X6_aggregation_frame Demo.qsqrt 7 Demo.paths_abc Demo.built_instance 2 2)
    as (s' & Hrun & Hmp & Hcvl & Hd & _).
  { apply readyb_ready. vm_compute. reflexivity. }
  exists s'. repeat split; assumption.
Defined.

(** X7.  When the instance holds no more samples than [min_points], an
    aggregation pass masks every cell of every field. *)
Theorem X7_too_few_samples sqrt mp σ s R Cn :
  ready R Cn s →
  (Z.of_nat (length (constituent_vel_matrix_list s)) ≤ mp)%Z →
  ∃ s', _average_cartesian sqrt mp (World σ s) = (Ret (), World σ s') ∧
    ∀ k r c, k ∈ field_keys → (r < R)%nat → (c < Cn)%nat →
      read_cell s' k r c = Some None.
Proof.
  intros Hready Hfew.
  destruct (average_cartesian_read sqrt mp σ s R Cn Hready) as (s' & Hrun & Hread).
  exists s'. split; [done|]. intros k r c [F HF]%field_keys_stats Hr Hc.
  rewrite (Hread k F) by done. f_equal.
  eapply low_count_masked; [done|].
  pose proof (count_le_length (series cU (constituent_vel_matrix_list s) r c)) as Hle.
  unfold series in Hle at 2. rewrite length_map in Hle. lia.
Qed.

Lemma X7_too_few_samples_witness :
  ∃ s', _average_cartesian Demo.qsqrt 20 (World ∅ Demo.built_instance) = (Ret (), World ∅ s') ∧
    ∀ k r c, k ∈ field_keys → (r < 2)%nat → (c < 2)%nat →
      read_cell s' k r c = Some None.
Proof.
  apply (X7_too_few_samples Demo.qsqrt 20 ∅ Demo.built_instance 2 2).
  - apply readyb_ready. vm_compute. reflexivity.
  - vm_compute. discriminate.
Defined.

(** ** Aggregating before any ingestion *)

(** X8.  On an instance without grid dimensions (one constructed without
    paths and never populated) an aggregation pass raises a type error at
    line 128; by then line 125 has already stored the new [min_points], and
    nothing else has changed. *)
Theorem X8_aggregation_before_ingestion sqrt mp σ s :
  dims s = None →
  _average_cartesian sqrt mp (World σ s) = (Raise TypeError, World σ (set_min_points mp s)).
Proof.
  intros Hd. unfold _average_cartesian.
  erewrite bind_run by reflexivity.
  erewrite bind_run by reflexivity.
  erewrite bind_run by reflexivity.
  cbn [lists self dims set_min_points]. rewrite Hd. cbn [from_option].
  by erewrite bind_raise by reflexivity.
Qed.

Lemma X8_aggregation_before_ingestion_witness :
  _average_cartesian Demo.qsqrt 3 (World ∅ Demo.fresh)
  = (Raise TypeError, World ∅ (set_min_points 3 Demo.fresh)).
Proof. apply (X8_aggregation_before_ingestion Demo.qsqrt 3 ∅ Demo.fresh). reflexivity. Defined.

(** ** Writing and reading back *)

(** X9.  When a write through the accessor succeeds, reading the same key
    afterwards returns the value written; the write leaves the caller's
    lists, every entry of the field table under a key other than the key
    and its reversal, and every other attribute of the instance as they
    were. *)
Theorem X9_write_then_read σ s k v :
  (__setitem__ k v (World σ s)).1 = Ret () →
  let w' := (__setitem__ k v (World σ s)).2 in
  __getitem__ k w' = (Ret v, w') ∧
  lists w' = σ ∧
  (∀ k', k' ≠ k → k' ≠ String.rev k →
     vel_matrix (self w') !! k' = vel_matrix s !! k') ∧
  meshgrid (self w') = meshgrid s ∧
  dims (self w') = dims s ∧
  min_points (self w') = min_points s ∧
  constituent_vel_matrix_list (self w') = constituent_vel_matrix_list s ∧
  name_tag (self w') = name_tag s ∧
  v3d_paths (self w') = v3d_paths s ∧
  velocity_fs (self w') = velocity_fs s ∧
  x_set (self w') = x_set s ∧
  y_set (self w') = y_set s.
Proof.
  destruct (vel_matrix s !! k) as [x|] eqn:Hk.
  { rewrite setitem_field by eauto. intros _ w'. subst w'. cbn [snd lists self].
    split_and!; try done.
    - apply getitem_field. cbn [vel_matrix set_vel_matrix]. apply lookup_insert_eq.
    - intros k' Hne _. cbn [vel_matrix set_vel_matrix]. by apply lookup_insert_ne. }
  destruct (vel_matrix s !! String.rev k) as [x|] eqn:Hr.
  { rewrite setitem_reversed by eauto. intros _ w'. subst w'. cbn [snd lists self].
    assert (String.rev k ≠ k) as Hne by congruence.
    split_and!; try done.
    - apply getitem_reversed; cbn [vel_matrix set_vel_matrix].
      + by rewrite lookup_insert_ne.
      + apply lookup_insert_eq.
    - intros k' _ Hne'. cbn [vel_matrix set_vel_matrix]. by apply lookup_insert_ne. }
  by rewrite setitem_unknown.
Qed.

Lemma X9_write_then_read_witness :
  let w' := (__setitem__ "vu" VNone (World ∅ Demo.fresh)).2 in
  __getitem__ "vu" w' = (Ret VNone, w') ∧
  lists w' = ∅ ∧
  (∀ k', k' ≠ "vu"%string → k' ≠ String.rev "vu" →
     vel_matrix (self w') !! k' = vel_matrix Demo.fresh !! k') ∧
  meshgrid (self w') = meshgrid Demo.fresh ∧
  dims (self w') = dims Demo.fresh ∧
  min_points (self w') = min_points Demo.fresh ∧
  constituent_vel_matrix_list (self w') = constituent_vel_matrix_list Demo.fresh ∧
  name_tag (self w') = name_tag Demo.fresh ∧
  v3d_paths (self w') = v3d_paths Demo.fresh ∧
  velocity_fs (self w') = velocity_fs Demo.fresh ∧
  x_set (self w') = x_set Demo.fresh ∧
  y_set (self w') = y_set Demo.fresh.
Proof.
  apply (X9_write_then_read ∅ Demo.fresh "vu" VNone). vm_compute. reflexivity.
Defined.

(** X10.  A write through the accessor, whether it succeeds or raises,
    neither adds a key to the field table nor removes one. *)
Theorem X10_write_keeps_keys σ s k v :
  dom (vel_matrix (self (__setitem__ k v (World σ s)).2)) = dom (vel_matrix s).
Proof.
  destruct (vel_matrix s !! k) as [x|] eqn:Hk.
  { rewrite setitem_field by eauto. cbn [snd self vel_matrix set_vel_matrix].
    apply dom_insert_lookup_L. eauto. }
  destruct (vel_matrix s !! String.rev k) as [x|] eqn:Hr.
  { rewrite setitem_reversed by eauto. cbn [snd self vel_matrix set_vel_matrix].
    apply dom_insert_lookup_L. eauto. }
  by rewrite setitem_unknown.
Qed.

(** ** More on ingestion *)

Lemma retain_fs first rest s : velocity_fs (retain first rest s) = velocity_fs s.
Proof. unfold retain. by rewrite foldl_append_fs. Qed.

(** The loop of lines 104-107 when the loader raises after [vfs]. *)
Lemma load_rest_fail VecFieldCartesian σ (d : nat * nat) paths vfs bad more s :
  loads VecFieldCartesian (velocity_fs s) paths vfs →
  Forall (λ vf, vf_dims vf = d) vfs →
  VecFieldCartesian bad (velocity_fs s) = None →
  for_each (paths ++ bad :: more) (λ path,
    next_vf ← load VecFieldCartesian path;
    (if decide (vf_dims next_vf = d) then mret () else raise AssertionError) ;;
    modify (append_cvm (vf_vel_matrix next_vf))) (World σ s)
  = (Raise LoaderError,
     World σ (foldl (λ s vf, append_cvm (vf_vel_matrix vf) s) s vfs)).
Proof.
  intros Hl. revert paths s Hl.
  induction vfs as [|vf vfs IH]; intros paths s Hl Hd Hbad.
  - inversion Hl; subst. cbn [app for_each foldl].
    erewrite bind_raise; [done|].
    erewrite bind_raise; [done|].
    unfold load. erewrite bind_run by reflexivity. cbn [self]. by rewrite Hbad.
  - inversion Hl as [|p vf' ps vfs' Hp Hps]; subst.
    apply Forall_cons in Hd as [Hvf Hd]. cbn [app for_each foldl].
    erewrite bind_run; [by apply IH|].
    erewrite bind_run by by apply load_run.
    rewrite decide_True by done. by erewrite bind_run by reflexivity.
Qed.

(** X11.  Ingestions accumulate: on an instance whose retained samples
    have the grid's shape, ingesting one list and then a second one (all
    samples on one grid) ends with the field table and the retained samples
    that a single ingestion of the two lists put end to end gives. *)
Theorem X11_ingest_twice sqrt VecFieldCartesian σ σ' l1 l2 l p1 ps1 p2 ps2
    first1 rest1 first2 rest2 s R Cn :
  l1 ≠ l2 →
  σ !! l1 = Some (p1 :: ps1) →
  σ !! l2 = Some (p2 :: ps2) →
  σ' !! l = Some ((p1 :: ps1) ++ (p2 :: ps2)) →
  loads VecFieldCartesian (velocity_fs s) (p1 :: ps1) (first1 :: rest1) →
  loads VecFieldCartesian (velocity_fs s) (p2 :: ps2) (first2 :: rest2) →
  Forall (λ vf, vf_dims vf = (R, Cn) ∧ cvm_shape R Cn (vf_vel_matrix vf))
         ((first1 :: rest1) ++ (first2 :: rest2)) →
  Forall (cvm_shape R Cn) (constituent_vel_matrix_list s) →
  table_ok (vel_matrix s) →
  ∃ w1 w2 w3,
    ingest_paths sqrt VecFieldCartesian l1 (World σ s) = (Ret (), w1) ∧
    ingest_paths sqrt VecFieldCartesian l2 w1 = (Ret (), w2) ∧
    ingest_paths sqrt VecFieldCartesian l (World σ' s) = (Ret (), w3) ∧
    vel_matrix (self w2) = vel_matrix (self w3) ∧
    constituent_vel_matrix_list (self w2) = constituent_vel_matrix_list (self w3) ∧
    constituent_vel_matrix_list (self w2)
    = constituent_vel_matrix_list s
      ++ map vf_vel_matrix ((first1 :: rest1) ++ (first2 :: rest2)).
Proof.
  intros Hne H1 H2 H3 Hl1 Hl2 Hall Hold Ht.
  apply Forall_app in Hall as [Hall1 Hall2].
  assert (∀ vfs, Forall (λ vf, vf_dims vf = (R, Cn) ∧ cvm_shape R Cn (vf_vel_matrix vf)) vfs →
            Forall (λ vf, vf_dims vf = (R, Cn)) vfs ∧
            Forall (λ vf, cvm_shape R Cn (vf_vel_matrix vf)) vfs) as Hsplit.
  { intros vfs H. split; (eapply Forall_impl; [exact H|]); by intros ? [??]. }
  destruct (Hsplit _ Hall1) as [Hd1 Hs1]. destruct (Hsplit _ Hall2) as [Hd2 Hs2].
  eexists _, _, _. split; [by eapply ingest_paths_run|].
  split.
  { eapply (ingest_paths_run _ _ _ _ p2 ps2 first2 rest2 _ R Cn).
    - by rewrite lookup_insert_ne.
    - cbn [velocity_fs set_vel_matrix set_min_points]. by rewrite retain_fs.
    - done.
    - cbn [constituent_vel_matrix_list set_vel_matrix set_min_points].
      rewrite retain_cvl. apply Forall_app. split; [done|]. by apply Forall_fmap.
    - done.
    - cbn [vel_matrix set_vel_matrix]. apply stats_table_ok. }
  split.
  { eapply (ingest_paths_run _ _ _ _ p1 (ps1 ++ p2 :: ps2)
              first1 (rest1 ++ first2 :: rest2) _ R Cn); try done.
    - unfold loads in *.
      change (Forall2 (λ p vf, VecFieldCartesian p (velocity_fs s) = Some vf)
                ((p1 :: ps1) ++ p2 :: ps2) ((first1 :: rest1) ++ first2 :: rest2)).
      by apply Forall2_app.
    - change (first1 :: rest1 ++ first2 :: rest2)
        with ((first1 :: rest1) ++ first2 :: rest2).
      apply Forall_app. by split.
    - change (first1 :: rest1 ++ first2 :: rest2)
        with ((first1 :: rest1) ++ first2 :: rest2).
      apply Forall_app. by split. }
  cbn [self vel_matrix constituent_vel_matrix_list min_points set_vel_matrix set_min_points].
  rewrite ?retain_cvl.
  cbn [constituent_vel_matrix_list set_vel_matrix set_min_points].
  rewrite ?retain_cvl, stats_table_overwrite.
  assert (∀ base : list cvm,
            (base ++ map vf_vel_matrix (first1 :: rest1)) ++ map vf_vel_matrix (first2 :: rest2)
            = base ++ map vf_vel_matrix (first1 :: rest1 ++ first2 :: rest2)) as Happ.
  { intros base. change (first1 :: rest1 ++ first2 :: rest2)
      with ((first1 :: rest1) ++ first2 :: rest2).
    by rewrite map_app, app_assoc. }
  rewrite !Happ. split_and!; reflexivity.
Qed.

Lemma X11_ingest_twice_witness :
  ∃ w1 w2 w3,
    ingest_paths Demo.qsqrt Demo.loader 0%nat (World DemoMore.paths_split Demo.fresh)
    = (Ret (), w1) ∧
    ingest_paths Demo.qsqrt Demo.loader 1%nat w1 = (Ret (), w2) ∧
    ingest_paths Demo.qsqrt Demo.loader 0%nat (World Demo.paths_abc Demo.fresh)
    = (Ret (), w3) ∧
    vel_matrix (self w2) = vel_matrix (self w3) ∧
    constituent_vel_matrix_list (self w2) = constituent_vel_matrix_list (self w3) ∧
    constituent_vel_matrix_list (self w2)
    = constituent_vel_matrix_list Demo.fresh
      ++ map vf_vel_matrix ([Demo.sample_a; Demo.sample_b] ++ [Demo.sample_c])%list.
Proof.
  apply (X11_ingest_twice Demo.qsqrt Demo.loader DemoMore.paths_split Demo.paths_abc
           0%nat 1%nat 0%nat "a" ["b"%string]%list "c" []%list
           Demo.sample_a [Demo.sample_b]%list Demo.sample_c []%list Demo.fresh 2%nat 2%nat).
  - discriminate.
  - reflexivity.
  - reflexivity.
  - reflexivity.
  - repeat constructor.
  - repeat constructor.
  - repeat constructor.
  - constructor.
  - exact (table_exact_ok _ (new_table_exact None None 20 None)).
Defined.

(** X12.  When the loader raises on the first path, [ingest_paths] raises
    that error with the instance untouched, but the first path has already
    been popped from the caller's list (line 97 pops before it loads). *)
Theorem X12_loader_fails_on_first sqrt VecFieldCartesian σ l p ps s :
  σ !! l = Some (p :: ps) →
  VecFieldCartesian p (velocity_fs s) = None →
  ingest_paths sqrt VecFieldCartesian l (World σ s)
  = (Raise LoaderError, World (<[l := ps]> σ) s) ∧
  ∀ name_tag mp,
    MeanVecFieldCartesian sqrt VecFieldCartesian name_tag (Some l) mp (velocity_fs s) σ
    = (Raise LoaderError, <[l := ps]> σ).
Proof.
  intros Hl Hp.
  assert (∀ s', velocity_fs s' = velocity_fs s →
            ingest_paths sqrt VecFieldCartesian l (World σ s')
            = (Raise LoaderError, World (<[l := ps]> σ) s')) as H.
  { intros s' Hfs. unfold ingest_paths.
    erewrite bind_run by (unfold list_pop0; cbn [lists]; by rewrite Hl).
    cbn [self]. erewrite bind_raise; [done|].
    unfold load. erewrite bind_run by reflexivity. cbn [self]. by rewrite Hfs, Hp. }
  split; [by apply H|]. intros name_tag mp. rewrite construct_run.
  by rewrite H.
Qed.

Lemma X12_loader_fails_on_first_witness :
  ingest_paths Demo.qsqrt Demo.loader 0%nat (World DemoMore.paths_bad_first Demo.fresh)
  = (Raise LoaderError, World (<[0%nat := ["a"%string]%list]> DemoMore.paths_bad_first) Demo.fresh) ∧
  ∀ name_tag mp,
    MeanVecFieldCartesian Demo.qsqrt Demo.loader name_tag (Some 0%nat) mp
      (velocity_fs Demo.fresh) DemoMore.paths_bad_first
    = (Raise LoaderError, <[0%nat := ["a"%string]%list]> DemoMore.paths_bad_first).
Proof.
  apply (X12_loader_fails_on_first Demo.qsqrt Demo.loader DemoMore.paths_bad_first 0%nat
           "missing" ["a"%string]%list Demo.fresh).
  - reflexivity.
  - reflexivity.
Defined.

(** X13.  When the loader raises on a later path, the samples before it
    matching the first one, [ingest_paths] raises that error before any
    statistics: the field table and [min_points] are what they were, while
    the instance keeps the grid of the first sample and the samples loaded
    so far, and the caller's list has lost its first path only. *)
Theorem X13_loader_fails_later sqrt VecFieldCartesian σ l p good bad more first rest s :
  σ !! l = Some (p :: good ++ bad :: more) →
  loads VecFieldCartesian (velocity_fs s) (p :: good) (first :: rest) →
  Forall (λ vf, vf_dims vf = vf_dims first) rest →
  VecFieldCartesian bad (velocity_fs s) = None →
  ∃ s', ingest_paths sqrt VecFieldCartesian l (World σ s)
        = (Raise LoaderError, World (<[l := good ++ bad :: more]> σ) s') ∧
    vel_matrix s' = vel_matrix s ∧
    min_points s' = min_points s ∧
    dims s' = Some (vf_dims first) ∧
    constituent_vel_matrix_list s'
    = constituent_vel_matrix_list s ++ map vf_vel_matrix (first :: rest).
Proof.
  intros Hl Hloads Hdims Hbad. inversion Hloads as [|? ? ? ? Hp Hps]; subst.
  exists (retain first rest s). split.
  - unfold ingest_paths.
    erewrite bind_run by (unfold list_pop0; cbn [lists]; by rewrite Hl).
    cbn [self]. erewrite bind_run by by apply load_run.
    erewrite bind_run by reflexivity. erewrite bind_run by reflexivity.
    cbn [lists self].
    erewrite bind_run by (unfold list_read; cbn [lists]; by rewrite lookup_insert_eq).
    by erewrite bind_raise
      by by apply (load_rest_fail _ _ (vf_dims first) good rest bad more).
  - destruct (retain_grid first rest s) as (Hd & _ & _ & _ & Hvm & Hmp & _).
    split_and!; [done..|]. apply retain_cvl.
Qed.

Lemma X13_loader_fails_later_witness :
  ∃ s', ingest_paths Demo.qsqrt Demo.loader 0%nat (World DemoMore.paths_bad_later Demo.fresh)
        = (Raise LoaderError,
           World (<[0%nat := ["b"; "missing"; "c"]%string]> DemoMore.paths_bad_later) s') ∧
    vel_matrix s' = vel_matrix Demo.fresh ∧
    min_points s' = min_points Demo.fresh ∧
    dims s' = Some (2, 2)%nat ∧
    constituent_vel_matrix_list s'
    = [vf_vel_matrix Demo.sample_a; vf_vel_matrix Demo.sample_b]%list.
Proof.
  apply (X13_loader_fails_later Demo.qsqrt Demo.loader DemoMore.paths_bad_later 0%nat "a"
           ["b"%string]%list "missing" ["c"%string]%list Demo.sample_a
           [Demo.sample_b]%list Demo.fresh).
  - reflexivity.
  - repeat constructor.
  - repeat constructor.
  - reflexivity.
Defined.

(** ** An ensemble of one sample *)

Lemma of_nat_1 : Ma.of_nat 1 = 1.
Proof. unfold Ma.of_nat. simpl. apply Z2Qc_inj_1. Qed.

Lemma ensemble_mean_single x : ensemble_mean [x]%list = x.
Proof.
  unfold ensemble_mean, Ma.total. simpl. rewrite of_nat_1. field. discriminate.
Qed.

Lemma population_variance_single x : population_variance [x]%list = 0.
Proof.
  unfold population_variance. rewrite ensemble_mean_single.
  unfold Ma.total. simpl. rewrite of_nat_1. field. discriminate.
Qed.

Lemma mean_abs_deviation_single x : mean_abs_deviation [x]%list = 0.
Proof.
  unfold mean_abs_deviation. rewrite ensemble_mean_single.
  unfold Ma.total. simpl. replace (x - x) with 0 by ring.
  rewrite (Qcabs_pos 0) by apply Qcle_refl. rewrite of_nat_1. field. discriminate.
Qed.

(** X14.  With a single retained sample and a threshold below one, at
    every cell where the sample's U is valid, each component that is valid
    there has its own value as mean and zero as mean absolute fluctuation
    and as second moment. *)
Theorem X14_single_sample sqrt mp σ s R Cn m :
  ready R Cn s →
  constituent_vel_matrix_list s = [m]%list →
  (mp < 1)%Z →
  ∃ s', _average_cartesian sqrt mp (World σ s) = (Ret (), World σ s') ∧
    ∀ X x xx comp r c v,
      (X, x, xx, comp) ∈ component_keys → (r < R)%nat → (c < Cn)%nat →
      is_Some (at2 (cU m) r c) →
      at2 (comp m) r c = Some v →
      read_cell s' X r c = Some (Some v) ∧
      read_cell s' x r c = Some (Some 0) ∧
      read_cell s' xx r c = Some (Some 0).
Proof.
  intros Hready Hone Hmp.
  destruct (average_cartesian_read sqrt mp σ s R Cn Hready) as (s' & Hrun & Hread).
  exists s'. split; [done|]. intros X x xx comp r c v Hcomp Hr Hc [vu Hu] Hv.
  rewrite Hone in Hread. unfold series in Hread. simpl in Hread.
  assert (mp < Z.of_nat (Ma.count [at2 (cU m) r c]%list))%Z as Hm
    by (rewrite Hu; exact Hmp).
  assert (0 < Ma.count [at2 (comp m) r c]%list)%nat as Hxs
    by (rewrite Hv; exact (Nat.lt_0_succ 0)).
  pose proof (mean_of_valued mp _ _ Hm Hxs) as HM.
  pose proof (second_moment_valued mp _ _ Hm Hxs) as HS.
  pose proof (abs_moment_valued mp _ _ Hm Hxs) as HA.
  assert (Ma.valid [at2 (comp m) r c]%list = [v]%list) as Hvalid
    by (rewrite Hv; reflexivity).
  rewrite Hvalid in HM, HS, HA.
  rewrite ensemble_mean_single in HM.
  rewrite population_variance_single in HS.
  rewrite mean_abs_deviation_single in HA.
  unfold component_keys in Hcomp.
  repeat (apply elem_of_cons in Hcomp as [Hcomp|Hcomp];
          [injection Hcomp as -> -> -> ->;
           split_and!; (erewrite Hread; [|in_fields|done..]); cbv beta; f_equal;
           [exact HM | exact HA | exact HS]|]).
  by apply elem_of_nil in Hcomp.
Qed.

Lemma X14_single_sample_witness :
  ∃ s', _average_cartesian Demo.qsqrt 0 (World ∅ DemoMore.single_instance)
        = (Ret (), World ∅ s') ∧
    read_cell s' "V" 0 1 = Some (Some (Qc_of_Z 5)) ∧
    read_cell s' "v" 0 1 = Some (Some 0) ∧
    read_cell s' "vv" 0 1 = Some (Some 0).
Proof.
  destruct (X14_single_sample Demo.qsqrt 0 ∅ DemoMore.single_instance 2 2
              (vf_vel_matrix Demo.sample_c))
    as (s' & Hrun & Hcells).
  { apply readyb_ready. vm_compute. reflexivity. }
  { vm_compute. reflexivity. }
  { reflexivity. }
  exists s'. split; [done|].
  apply (Hcells "V" "v" "vv" cV 0 1 (Qc_of_Z 5))%nat%string.
  - apply list_elem_of_further, list_elem_of_here.
  - lia.
  - lia.
  - vm_compute. eauto.
  - reflexivity.
Defined.

(** ** The threshold and the values *)

Section threshold.
Variable sqrt : Qc → Qc.
Variables us vs ws : list Ma.cell.

(** A statistic depends on the threshold through the mask [mpm] only. *)
Lemma stat_same_mpm mp mp' k F :
  (k, F) ∈ stats_fields →
  Cell.mpm mp us = Cell.mpm mp' us → F sqrt mp us vs ws = F sqrt mp' us vs ws.
Proof.
  intros HF Hm.
  each_field ltac:(cbv beta;
    unfold Cell.M, Cell.P, Cell.u, Cell.v, Cell.w, Cell.cte, Cell.uu, Cell.vv,
      Cell.ww, Cell.uv, Cell.uw, Cell.vw, Cell.uvw, Cell.u_p, Cell.v_p, Cell.w_p,
      Cell.U, Cell.V, Cell.W, Cell.num, Cell.mean_of;
    rewrite Hm; reflexivity).
Qed.

Lemma unmasked_above mp k F x :
  (k, F) ∈ stats_fields → F sqrt mp us vs ws = Some x → Cell.mpm mp us = false.
Proof.
  intros HF Hx. destruct (Cell.mpm mp us) eqn:Hm; [|done].
  apply mpm_true in Hm. by rewrite (low_count_masked sqrt mp us vs ws k F) in Hx.
Qed.
End threshold.

(** X15.  The threshold decides which cells are masked and nothing else:
    a cell of a field that is unmasked after a pass with the threshold
    [mp1] and after a pass with the threshold [mp2] holds the same number
    in both, and a cell masked under [mp1] is masked under every threshold
    [mp2 ≥ mp1]. *)
Theorem X15_threshold_only_masks sqrt mp1 mp2 σ s R Cn :
  ready R Cn s →
  ∃ s1 s2,
    _average_cartesian sqrt mp1 (World σ s) = (Ret (), World σ s1) ∧
    _average_cartesian sqrt mp2 (World σ s) = (Ret (), World σ s2) ∧
    ∀ k r c, k ∈ field_keys → (r < R)%nat → (c < Cn)%nat →
      (∀ x y, read_cell s1 k r c = Some (Some x) →
              read_cell s2 k r c = Some (Some y) → x = y) ∧
      ((mp1 ≤ mp2)%Z → read_cell s1 k r c = Some None →
       read_cell s2 k r c = Some None).
Proof.
  intros Hready.
  destruct (average_cartesian_read sqrt mp1 σ s R Cn Hready) as (s1 & Hrun1 & Hread1).
  destruct (average_cartesian_read sqrt mp2 σ s R Cn Hready) as (s2 & Hrun2 & Hread2).
  exists s1, s2. split_and!; [done..|].
  intros k r c [F HF]%field_keys_stats Hr Hc.
  rewrite (Hread1 k F), (Hread2 k F) by done.
  set (us := series cU (constituent_vel_matrix_list s) r c).
  set (vs := series cV (constituent_vel_matrix_list s) r c).
  set (ws := series cW (constituent_vel_matrix_list s) r c).
  split.
  - intros x y [= Hx] [= Hy].
    pose proof (unmasked_above sqrt us vs ws mp1 k F x HF Hx) as H1.
    pose proof (unmasked_above sqrt us vs ws mp2 k F y HF Hy) as H2.
    rewrite (stat_same_mpm sqrt us vs ws mp1 mp2 k F HF) in Hx by congruence.
    congruence.
  - intros Hle [= Hx]. f_equal.
    destruct (Cell.mpm mp2 us) eqn:H2.
    { apply (low_count_masked sqrt mp2 us vs ws k F HF). by apply mpm_true. }
    destruct (Cell.mpm mp1 us) eqn:H1.
    { apply mpm_true in H1. apply mpm_false in H2. lia. }
    rewrite <- (stat_same_mpm sqrt us vs ws mp1 mp2 k F HF) by congruence. done.
Qed.

Lemma X15_threshold_only_masks_witness :
  ∃ s1 s2,
    _average_cartesian Demo.qsqrt 0 (World ∅ Demo.built_instance) = (Ret (), World ∅ s1) ∧
    _average_cartesian Demo.qsqrt 2 (World ∅ Demo.built_instance) = (Ret (), World ∅ s2) ∧
    ∀ k r c, k ∈ field_keys → (r < 2)%nat → (c < 2)%nat →
      (∀ x y, read_cell s1 k r c = Some (Some x) →
              read_cell s2 k r c = Some (Some y) → x = y) ∧
      ((0 ≤ 2)%Z → read_cell s1 k r c = Some None →
       read_cell s2 k r c = Some None).
Proof.
  apply (X15_threshold_only_masks Demo.qsqrt 0 2 ∅ Demo.built_instance 2 2).
  apply readyb_ready. vm_compute. reflexivity.
Defined.

(** X16.  An unmasked cell of [num] holds a number greater than the
    threshold of the pass and at most the number of retained samples. *)
Theorem X16_count_bounds sqrt mp σ s R Cn :
  ready R Cn s →
  ∃ s', _average_cartesian sqrt mp (World σ s) = (Ret (), World σ s') ∧
    ∀ r c x, (r < R)%nat → (c < Cn)%nat →
      read_cell s' "num" r c = Some (Some x) →
      Qc_of_Z mp < x ∧ x ≤ Ma.of_nat (length (constituent_vel_matrix_list s)).
Proof.
  intros Hready.
  destruct (average_cartesian_read sqrt mp σ s R Cn Hready) as (s' & Hrun & Hread).
  exists s'. split; [done|]. intros r c x Hr Hc.
  rewrite (Hread "num" (λ _ mp us _ _, Cell.num mp us)) by (done || in_fields).
  cbv beta. unfold Cell.num, Ma.masked_array.
  destruct (Cell.mpm _ _) eqn:Hm; [done|]. intros [= <-]. apply mpm_false in Hm.
  split.
  - unfold Ma.of_nat. by apply (proj1 (Z2Qc_inj_lt _ _)).
  - unfold Ma.of_nat. apply (proj1 (Z2Qc_inj_le _ _)). apply Nat2Z.inj_le.
    etransitivity; [apply count_le_length|]. unfold series. by rewrite length_map.
Qed.

Lemma X16_count_bounds_witness :
  ∃ s', _average_cartesian Demo.qsqrt 2 (World ∅ Demo.built_instance) = (Ret (), World ∅ s') ∧
    ∀ r c x, (r < 2)%nat → (c < 2)%nat →
      read_cell s' "num" r c = Some (Some x) →
      Qc_of_Z 2 < x ∧ x ≤ Ma.of_nat (length (constituent_vel_matrix_list Demo.built_instance)).
Proof.
  apply (X16_count_bounds Demo.qsqrt 2 ∅ Demo.built_instance 2 2).
  apply readyb_ready. vm_compute. reflexivity.
Defined.

(** ** The triple correlation *)





(** ** The constructor *)

Lemma foldl_append_tag (vfs : list VecField) s :
  name_tag (foldl (λ s vf, append_cvm (vf_vel_matrix vf) s) s vfs) = name_tag s.
Proof. revert s. induction vfs as [|vf vfs IH]; intros s; [done|]. simpl. by rewrite IH. Qed.

(** X18.  An instance constructed from paths that all load on one grid
    carries the threshold, the tag and the free-stream velocity it was
    given, and is a fixed point of the aggregation at its own threshold:
    running [_average_cartesian] again with that threshold, whatever the
    caller's lists hold by then, changes nothing. *)
Theorem X18_construct_then_reaggregate sqrt VecFieldCartesian tag mp fs σ l p ps
    first rest R Cn :
  σ !! l = Some (p :: ps) →
  loads VecFieldCartesian fs (p :: ps) (first :: rest) →
  Forall (λ vf, vf_dims vf = (R, Cn)) (first :: rest) →
  Forall (λ vf, cvm_shape R Cn (vf_vel_matrix vf)) (first :: rest) →
  ∃ s, MeanVecFieldCartesian sqrt VecFieldCartesian tag (Some l) mp fs σ
       = (Ret s, <[l := ps]> σ) ∧
    min_points s = mp ∧ name_tag s = tag ∧ velocity_fs s = fs ∧
    ∀ σ', _average_cartesian sqrt mp (World σ' s) = (Ret (), World σ' s).
Proof.
  intros Hl Hloads Hdims Hshape.
  pose proof (construct_ok sqrt VecFieldCartesian tag mp fs σ l p ps first rest R Cn
                Hl Hloads Hdims Hshape) as Hbuilt.
  cbv zeta in Hbuilt. eexists. split; [exact Hbuilt|].
  set (s0 := new_instance tag (Some l) mp fs) in *.
  destruct (retain_grid first rest s0) as (Hd & _ & _ & _ & Hvm & Hmp & _).
  apply Forall_cons in Hdims as Hfirst. destruct Hfirst as [Hfirst _].
  split_and!.
  - reflexivity.
  - cbn [name_tag set_vel_matrix set_min_points]. unfold retain.
    by rewrite foldl_append_tag.
  - cbn [velocity_fs set_vel_matrix set_min_points]. by rewrite retain_fs.
  - intros σ'. rewrite (average_cartesian_run _ _ _ _ R Cn).
    + cbn [constituent_vel_matrix_list vel_matrix set_vel_matrix set_min_points
           name_tag v3d_paths min_points velocity_fs x_set y_set dims meshgrid].
      rewrite retain_cvl, stats_table_overwrite. reflexivity.
    + split_and!.
      * cbn [dims set_vel_matrix set_min_points]. by rewrite Hd, Hfirst.
      * cbn [constituent_vel_matrix_list set_vel_matrix set_min_points].
        rewrite retain_cvl. by intros [? [=]]%app_eq_nil.
      * cbn [constituent_vel_matrix_list set_vel_matrix set_min_points].
        rewrite retain_cvl. apply Forall_app. split; [constructor|].
        by apply Forall_fmap.
      * cbn [vel_matrix set_vel_matrix]. apply stats_table_ok.
Qed.

Lemma X18_construct_then_reaggregate_witness :
  ∃ s, MeanVecFieldCartesian Demo.qsqrt Demo.loader (Some "demo"%string) (Some 0%nat) 2 None
         Demo.paths_abc
       = (Ret s, <[0%nat := ["b"; "c"]%string]> Demo.paths_abc) ∧
    min_points s = 2%Z ∧ name_tag s = Some "demo"%string ∧ velocity_fs s = None ∧
    ∀ σ', _average_cartesian Demo.qsqrt 2 (World σ' s) = (Ret (), World σ' s).
Proof.
  apply (X18_construct_then_reaggregate Demo.qsqrt Demo.loader (Some "demo"%string) 2 None
           Demo.paths_abc 0%nat "a" ["b"; "c"]%string Demo.sample_a
           [Demo.sample_b; Demo.sample_c]%list 2%nat 2%nat).
  - reflexivity.
  - repeat constructor.
  - repeat constructor.
  - repeat constructor.
Defined.

(** X19.  A construction without paths (lines 59-61 skip the ingestion)
    returns an instance and leaves the caller's lists alone; the instance
    retains no sample and has no grid, every field key reads as [None], and
    an aggregation pass on it raises a type error. *)
Theorem X19_construct_without_paths sqrt VecFieldCartesian tag mp fs σ :
  ∃ s, MeanVecFieldCartesian sqrt VecFieldCartesian tag None mp fs σ = (Ret s, σ) ∧
    constituent_vel_matrix_list s = [] ∧
    dims s = None ∧
    min_points s = mp ∧
    (∀ σ' k, k ∈ field_keys → __getitem__ k (World σ' s) = (Ret VNone, World σ' s)) ∧
    ∀ σ' mp', (_average_cartesian sqrt mp' (World σ' s)).1 = Raise TypeError.
Proof.
  exists (new_instance tag None mp fs). split_and!; [reflexivity.. | | ].
  - intros σ' k Hk. apply getitem_field. unfold field_keys in Hk.
    repeat (apply elem_of_cons in Hk as [->|Hk]; [reflexivity|]).
    by apply elem_of_nil in Hk.
  - intros σ' mp'. reflexivity.
Qed.

(** ** Reading and writing back *)

Lemma set_vel_matrix_same s : set_vel_matrix (vel_matrix s) s = s.
Proof. by destruct s. Qed.

(** X20.  A read never raises and never changes the world; when the key,
    or its reversal, is in the field table, writing the value just read
    back through the same key succeeds and leaves the world as it was. *)
Theorem X20_read_then_write_back σ s k :
  ∃ v, __getitem__ k (World σ s) = (Ret v, World σ s) ∧
    (is_Some (vel_matrix s !! k) ∨ is_Some (vel_matrix s !! String.rev k) →
     __setitem__ k v (World σ s) = (Ret (), World σ s)).
Proof.
  destruct (vel_matrix s !! k) as [x|] eqn:Hx.
  { exists x. split; [by apply getitem_field|]. intros _.
    rewrite setitem_field by eauto.
    by rewrite insert_id, set_vel_matrix_same. }
  destruct (vel_matrix s !! String.rev k) as [x|] eqn:Hr.
  { exists x. split; [by apply getitem_reversed|]. intros _.
    rewrite setitem_reversed by eauto.
    by rewrite insert_id, set_vel_matrix_same. }
  destruct (getitem_result σ s k) as (v & Hv & _).
  exists v. split; [done|]. by intros [[? [=]]|[? [=]]].
Qed.

Lemma X20_read_then_write_back_witness :
  ∃ v, __getitem__ "vu" (World Demo.paths_abc Demo.fresh) = (Ret v, World Demo.paths_abc Demo.fresh) ∧
       __setitem__ "vu" v (World Demo.paths_abc Demo.fresh)
       = (Ret (), World Demo.paths_abc Demo.fresh).
Proof.
  destruct (X20_read_then_write_back Demo.paths_abc Demo.fresh "vu") as (v & Hread & Hwrite).
  exists v. split; [exact Hread|]. apply Hwrite.
  right. vm_compute. eauto.
Defined.

(** ** What an ingestion inherits *)

(** X21.  A successful ingestion, also on an instance that already holds
    samples, takes the grid dimensions, the axes and the mesh table from
    the first sample of the list it is given (lines 98-101 overwrite them
    unconditionally) and leaves the tag, the stored path list, the
    free-stream velocity and [min_points] as they were. *)
Theorem X21_ingest_inherits_grid sqrt VecFieldCartesian σ l p ps first rest s R Cn :
  σ !! l = Some (p :: ps) →
  loads VecFieldCartesian (velocity_fs s) (p :: ps) (first :: rest) →
  Forall (λ vf, vf_dims vf = (R, Cn)) (first :: rest) →
  Forall (cvm_shape R Cn) (constituent_vel_matrix_list s) →
  Forall (λ vf, cvm_shape R Cn (vf_vel_matrix vf)) (first :: rest) →
  table_ok (vel_matrix s) →
  ∃ s', ingest_paths sqrt VecFieldCartesian l (World σ s)
        = (Ret (), World (<[l := ps]> σ) s') ∧
    dims s' = Some (R, Cn) ∧
    x_set s' = vf_x_set first ∧ y_set s' = vf_y_set first ∧
    meshgrid s' = vf_meshgrid first ∧
    name_tag s' = name_tag s ∧ v3d_paths s' = v3d_paths s ∧
    velocity_fs s' = velocity_fs s ∧ min_points s' = min_points s.
Proof.
  intros Hl Hloads Hdims Hold Hnew Ht.
  eexists. split; [by apply (ingest_paths_run _ _ _ _ p ps first rest _ R Cn)|].
  destruct (retain_grid first rest s) as (Hd & Hx & Hy & Hm & _ & _ & Hp).
  apply Forall_cons in Hdims as [Hfirst _].
  cbn [dims x_set y_set meshgrid name_tag v3d_paths velocity_fs min_points
       set_vel_matrix set_min_points].
  split_and!; try done.
  - by rewrite Hd, Hfirst.
  - unfold retain. by rewrite foldl_append_tag.
  - by rewrite retain_fs.
Qed.

Lemma X21_ingest_inherits_grid_witness :
  ∃ s', ingest_paths Demo.qsqrt Demo.loader 1%nat (World DemoMore.paths_split Demo.built_instance)
        = (Ret (), World (<[1%nat := []%list]> DemoMore.paths_split) s') ∧
    dims s' = Some (2, 2)%nat ∧
    x_set s' = vf_x_set Demo.sample_c ∧ y_set s' = vf_y_set Demo.sample_c ∧
    meshgrid s' = vf_meshgrid Demo.sample_c ∧
    name_tag s' = name_tag Demo.built_instance ∧
    v3d_paths s' = v3d_paths Demo.built_instance ∧
    velocity_fs s' = velocity_fs Demo.built_instance ∧
    min_points s' = min_points Demo.built_instance.
Proof.
  apply (X21_ingest_inherits_grid Demo.qsqrt Demo.loader DemoMore.paths_split 1%nat
           "c" []%list Demo.sample_c []%list Demo.built_instance 2%nat 2%nat).
  - reflexivity.
  - repeat constructor.
  - repeat constructor.
  - apply Forall_forall. intros m Hm.
    assert (readyb 2 2 Demo.built_instance = true) as H by (vm_compute; reflexivity).
    apply readyb_ready in H. destruct H as (_ & _ & H & _).
    rewrite Forall_forall in H. by apply H.
  - repeat constructor.
  - assert (readyb 2 2 Demo.built_instance = true) as H by (vm_compute; reflexivity).
    apply readyb_ready in H. by destruct H as (_ & _ & _ & H).
Defined.
